(** * Interface reconciliation of the OS synthesis tools

    A shallow embedding of the two Python modules that carry the
    reconciliation logic of the repository:

    - [synthesizer.py] ([OSSynthesizer]): discovery of the candidate files
      of a header ([find_similar_files]), selection and reading of one file
      per source tree ([intelligent_merge]) and the assembly of the merged
      header ([synthesize_content]);
    - [ipc_mapper.py] ([IPCMapper]): the pairwise compatibility score
      ([calculate_compatibility_score]) and the conflict list of
      [generate_synthesis_plan].

    Conventions of the embedding.

    - A Python [str] is a Rocq [string]; one [ascii] stands for one code
      point in U+0000..U+00FF.  This is exactly the range of the file
      contents, which the program decodes as latin-1.
    - A [dict] that is iterated in insertion order ([contents],
      [file_paths]) is an association list with unique keys.  The three
      [defaultdict(set)] tables and [self.interfaces] are only looked up
      or sorted, and are finite maps ([gmap]).
    - A [set] of [str] is a [gset string].  The order in which Python
      iterates such a set depends on the string hash seed of the process,
      so the iteration order is a parameter ([set_iter]) of every function
      that iterates one.
    - A Python [float] is an IEEE-754 binary64 value ([spec_float] with
      precision 53 and maximal exponent 1024).
    - The calls to the [re] module are evaluated by a backtracking matcher
      with Python's priorities: leftmost start, and for each repetition
      more rounds first when it is greedy, fewer first when it is lazy.
    - What the program gets from outside (the output of [find] and [grep],
      the text of a file, whether the locale's encoding can hold a text
      that is written) is a parameter of the functions that use it.
    - [str.upper] maps U+00B5 and U+00FF out of latin-1; the embedding
      leaves the two in place, and a theorem whose statement goes through
      the upper case of a name says so where it excludes them. *)

From Stdlib Require Import ZArith NArith Ascii String List Bool Lia SpecFloat.
From Stdlib Require Import Permutation Sorted.
From stdpp Require Import base option list strings gmap sorting pretty.

#[local] Set Warnings "-clear-no-such-hyp".


(** ** Code points and character classes *)

Module Char.

Definition code (c : ascii) : N := N_of_ascii c.

Definition between (lo hi : N) (c : ascii) : bool :=
  ((lo <=? code c) && (code c <=? hi))%N.

Definition is_code (n : N) (c : ascii) : bool := (code c =? n)%N.

(** [str.isspace] and the class [\s] of a [str] pattern, on latin-1. *)
Definition is_space (c : ascii) : bool :=
  between 9 13 c || between 28 32 c || is_code 133 c || is_code 160 c.

(** The class [\w] of a [str] pattern, on latin-1: alphanumeric code
    points (letters, decimal digits, other digits and numerics) and the
    underscore. *)
Definition is_word (c : ascii) : bool :=
  between 48 57 c || between 65 90 c || is_code 95 c || between 97 122 c
  || is_code 170 c || between 178 179 c || is_code 181 c || between 185 186 c
  || between 188 190 c || between 192 214 c || between 216 246 c
  || between 248 255 c.

(** [.] without [re.DOTALL]: anything but a line feed. *)
Definition not_newline (c : ascii) : bool := negb (is_code 10 c).

(** [.] with [re.DOTALL]. *)
Definition any (_ : ascii) : bool := true.

(** The class [[^)]]. *)
Definition not_rparen (c : ascii) : bool := negb (is_code 41 c).

(** [str.upper] on one code point.  The result is a string because the
    upper case of U+00DF is the two letters SS.  The upper-case forms of
    U+00B5 and U+00FF lie outside latin-1 (U+039C, U+0178); these two
    code points are outside the domain of the embedding and are left in
    place. *)
Definition upper (c : ascii) : string :=
  if between 97 122 c || between 224 246 c || between 248 254 c
  then String (ascii_of_N (code c - 32)) EmptyString
  else if is_code 223 c then "SS"
  else String c EmptyString.

(** [str.lower] on one code point; latin-1 is closed under it. *)
Definition lower (c : ascii) : ascii :=
  if between 65 90 c || between 192 214 c || between 216 222 c
  then ascii_of_N (code c + 32)
  else c.

End Char.

(** ** The [str] methods the program uses *)

Module Str.

Fixpoint upper (s : string) : string :=
  match s with
  | EmptyString => EmptyString
  | String c s' => Char.upper c +:+ upper s'
  end.

Fixpoint lower (s : string) : string :=
  match s with
  | EmptyString => EmptyString
  | String c s' => String (Char.lower c) (lower s')
  end.

(** [s.replace(a, b)] for single-character [a] and [b]. *)
Fixpoint replace_char (a b : ascii) (s : string) : string :=
  match s with
  | EmptyString => EmptyString
  | String c s' =>
      String (if Ascii.eqb c a then b else c) (replace_char a b s')
  end.

(** [sep.join(xs)]. *)
Fixpoint join (sep : string) (xs : list string) : string :=
  match xs with
  | [] => EmptyString
  | [x] => x
  | x :: xs' => x +:+ sep +:+ join sep xs'
  end.

(** [''.join(xs)]. *)
Definition concat (xs : list string) : string := join EmptyString xs.

Fixpoint lstrip (s : string) : string :=
  match s with
  | String c s' => if Char.is_space c then lstrip s' else s
  | EmptyString => EmptyString
  end.

(** Removal of trailing white space: a character is kept when it is not
    white space or when something is kept after it. *)
Fixpoint rstrip (s : string) : string :=
  match s with
  | EmptyString => EmptyString
  | String c s' =>
      match rstrip s' with
      | EmptyString => if Char.is_space c then EmptyString
                       else String c EmptyString
      | t => String c t
      end
  end.

(** [s.strip()]. *)
Definition strip (s : string) : string := rstrip (lstrip s).

(** [s.split('\n')]: the fields between line feeds; always at least one
    field. *)
Fixpoint split_lines (s : string) : list string :=
  match s with
  | EmptyString => [EmptyString]
  | String c s' =>
      if Char.is_code 10 c then EmptyString :: split_lines s'
      else match split_lines s' with
           | f :: fs => String c f :: fs
           | [] => [String c EmptyString]
           end
  end.

(** The truth value of a string: it is not empty. *)
Definition nonempty (s : string) : bool :=
  match s with
  | EmptyString => false
  | String _ _ => true
  end.

(** [s.startswith(p)]. *)
Definition startswith (p s : string) : bool := String.prefix p s.

(** [p in s] for strings. *)
Fixpoint contains (p s : string) : bool :=
  String.prefix p s ||
  match s with
  | EmptyString => false
  | String _ s' => contains p s'
  end.

End Str.

(** ** The fragment of [re] the program uses *)

Module Re.

(** Patterns.  [Lit] is what [re.escape] produces: text that matches
    itself.  [Bol] and [Eol] are [^] and [$] under [re.MULTILINE].
    [Grp] is the capturing group number 1; the groups written [(?:...)]
    in the source need no constructor. *)
Inductive regex : Type :=
| Lit (s : string)
| Cls (p : ascii -> bool)
| Bol
| Eol
| Cat (r1 r2 : regex)
| Opt (r : regex)
| Star (greedy : bool) (r : regex)
| Grp (r : regex).

(** [r+] and [r+?]. *)
Definition Plus (greedy : bool) (r : regex) : regex :=
  Cat r (Star greedy r).

(** A position in the subject: the character before it, its offset and
    the text from it on. *)
Record cursor : Type := Cursor {
  prev : option ascii;
  pos : nat;
  rest : string
}.

Definition start (s : string) : cursor := Cursor None 0 s.

Definition at_bol (c : cursor) : bool :=
  match prev c with
  | None => true
  | Some a => Char.is_code 10 a
  end.

Definition at_eol (c : cursor) : bool :=
  match rest c with
  | EmptyString => true
  | String a _ => Char.is_code 10 a
  end.

Fixpoint eat_lit (p : string) (c : cursor) : option cursor :=
  match p with
  | EmptyString => Some c
  | String a p' =>
      match rest c with
      | String b t =>
          if Ascii.eqb a b then eat_lit p' (Cursor (Some b) (S (pos c)) t)
          else None
      | EmptyString => None
      end
  end.

Section Matcher.
Context {R : Type}.

(** [rmatch r c cap k]: match [r] at [c] and hand the end position and
    group 1 to [k]; when [k] refuses, backtrack into [r].  A repetition
    runs its body at most once per remaining character, and each round
    has to advance. *)
Fixpoint rmatch (r : regex) (c : cursor) (cap : option string)
    (k : cursor -> option string -> option R) {struct r} : option R :=
  match r with
  | Lit s =>
      match eat_lit s c with
      | Some c' => k c' cap
      | None => None
      end
  | Cls p =>
      match rest c with
      | String a t =>
          if p a then k (Cursor (Some a) (S (pos c)) t) cap else None
      | EmptyString => None
      end
  | Bol => if at_bol c then k c cap else None
  | Eol => if at_eol c then k c cap else None
  | Cat r1 r2 => rmatch r1 c cap (fun c' cap' => rmatch r2 c' cap' k)
  | Opt r1 =>
      match rmatch r1 c cap k with
      | Some x => Some x
      | None => k c cap
      end
  | Star g r1 =>
      (fix iter (n : nat) (c : cursor) (cap : option string)
           {struct n} : option R :=
         match n with
         | O => k c cap
         | S n' =>
             let again c' cap' :=
               if Nat.ltb (pos c) (pos c') then iter n' c' cap' else None in
             if g then
               match rmatch r1 c cap again with
               | Some x => Some x
               | None => k c cap
               end
             else
               match k c cap with
               | Some x => Some x
               | None => rmatch r1 c cap again
               end
         end) (String.length (rest c)) c cap
  | Grp r1 =>
      rmatch r1 c cap
        (fun c' _ => k c' (Some (substring 0 (pos c' - pos c) (rest c))))
  end.
End Matcher.

(** The loop of a repetition on its own, over any matcher [body] for the
    repeated pattern: [rmatch (Star g r) c cap k] is
    [star_loop g (rmatch r) k (String.length (rest c)) c cap]. *)
Definition star_loop {R : Type} (g : bool)
    (body : cursor → option string →
            (cursor → option string → option R) → option R)
    (k : cursor → option string → option R)
  : nat → cursor → option string → option R :=
  fix iter (n : nat) (c : cursor) (cap : option string) : option R :=
    match n with
    | O => k c cap
    | S n' =>
        let again c' cap' :=
          if Nat.ltb (pos c) (pos c') then iter n' c' cap' else None in
        if g then
          match body c cap again with
          | Some x => Some x
          | None => k c cap
          end
        else
          match k c cap with
          | Some x => Some x
          | None => body c cap again
          end
    end.

(** [c'] lies at or after [c] in the same subject. *)
Definition reach (c c' : cursor) : Prop :=
  ∃ consumed : string,
    rest c = consumed +:+ rest c'
    ∧ pos c' = pos c + String.length consumed.

(** A match object: where the match ends and what group 1 holds. *)
Definition match_at (r : regex) (c : cursor)
  : option (cursor * option string) :=
  rmatch r c None (fun c' cap => Some (c', cap)).

Definition step (c : cursor) : option cursor :=
  match rest c with
  | String a t => Some (Cursor (Some a) (S (pos c)) t)
  | EmptyString => None
  end.

(** The leftmost match at or after a position. *)
Fixpoint search_at (r : regex) (pv : option ascii) (p : nat) (s : string)
    {struct s} : option (cursor * option string) :=
  match match_at r (Cursor pv p s) with
  | Some m => Some m
  | None =>
      match s with
      | String a t => search_at r (Some a) (S p) t
      | EmptyString => None
      end
  end.

(** [re.search(r, s)] followed by [.group(1)]: [None] when nothing
    matches.  Every pattern of the program closes its group on every
    match. *)
Definition search (r : regex) (s : string) : option string :=
  match search_at r None 0 s with
  | Some (_, cap) => Some (default EmptyString cap)
  | None => None
  end.

(** The scan of [re.findall]: successive matches that do not overlap,
    group 1 of each.  The scan resumes where the match ended; after an
    empty match it moves on by one character. *)
Fixpoint findall_at (n : nat) (r : regex) (c : cursor) : list string :=
  match n with
  | O => []
  | S n' =>
      let resume c' :=
        if Nat.ltb (pos c) (pos c') then Some c' else step c in
      match match_at r c with
      | Some (c', cap) =>
          default EmptyString cap ::
            match resume c' with
            | Some c1 => findall_at n' r c1
            | None => []
            end
      | None =>
          match step c with
          | Some c1 => findall_at n' r c1
          | None => []
          end
      end
  end.

Definition findall (r : regex) (s : string) : list string :=
  findall_at (S (String.length s)) r (start s).

(** The scan of [re.sub]: each match is replaced by what [template]
    makes of its group 1, the text between the matches is kept. *)
Fixpoint sub_at (n : nat) (r : regex) (template : option string → string)
    (c : cursor) : string :=
  match n with
  | O => EmptyString
  | S n' =>
      let keep :=
        match rest c with
        | String a t =>
            String a (sub_at n' r template (Cursor (Some a) (S (pos c)) t))
        | EmptyString => EmptyString
        end in
      match match_at r c with
      | Some (c', cap) =>
          if Nat.ltb (pos c) (pos c')
          then template cap +:+ sub_at n' r template c'
          else template cap +:+ keep
      | None => keep
      end
  end.

Definition sub (r : regex) (template : option string → string) (s : string)
  : string :=
  sub_at (S (String.length s)) r template (start s).

End Re.

(** ** The six patterns of [synthesize_content] *)

Module Pat.
Import Re.

Declare Scope re_scope.
Delimit Scope re_scope with re.
Infix ">>" := Cat (at level 60, right associativity) : re_scope.
Local Open Scope re_scope.

Definition space : regex := Cls Char.is_space.
Definition word : regex := Cls Char.is_word.
Definition dot : regex := Cls Char.not_newline.
Definition dot_all : regex := Cls Char.any.

(** [(?:extern\s+)?(?:\w+\s+)+], the head shared by the two function
    patterns. *)
Definition decl_head : regex :=
  Opt (Lit "extern" >> Plus true space)
  >> Plus true (Plus true word >> Plus true space).

(** [\s*\([^)]*\);], their tail. *)
Definition decl_tail : regex :=
  Star true space >> Lit "(" >> Star true (Cls Char.not_rparen)
  >> Lit ")" >> Lit ";".

(** [r'^#define\s+(\w+).*$'] with [re.MULTILINE]. *)
Definition define_names : regex :=
  Bol >> Lit "#define" >> Plus true space >> Grp (Plus true word)
  >> Star true dot >> Eol.

(** [r'^typedef\s+.*?\s+(\w+);'] with [re.MULTILINE]. *)
Definition typedef_names : regex :=
  Bol >> Lit "typedef" >> Plus true space >> Star false dot
  >> Plus true space >> Grp (Plus true word) >> Lit ";".

(** [r'^(?:extern\s+)?(?:\w+\s+)+(\w+)\s*\([^)]*\);'] with
    [re.MULTILINE]. *)
Definition function_names : regex :=
  Bol >> decl_head >> Grp (Plus true word) >> decl_tail.

(** [f'^(#define\\s+{re.escape(define)}.*?)$'] with [re.MULTILINE]. *)
Definition define_body (define : string) : regex :=
  Bol >> Grp (Lit "#define" >> Plus true space >> Lit define
              >> Star false dot) >> Eol.

(** [f'(typedef\\s+.*?\\s+{re.escape(typedef)};)'] with [re.DOTALL]. *)
Definition typedef_body (typedef : string) : regex :=
  Grp (Lit "typedef" >> Plus true space >> Star false dot_all
       >> Plus true space >> Lit typedef >> Lit ";").

(** [f'((?:extern\\s+)?(?:\\w+\\s+)+{re.escape(func)}\\s*\\([^)]*\\);)']
    with no flag. *)
Definition function_body (func : string) : regex :=
  Grp (decl_head >> Lit func >> decl_tail).

End Pat.

(** ** Python values: results, dictionaries in insertion order *)

Module Py.

(** The exceptions the modelled code can raise: [list(...)[0]] on an
    empty list, and [f.write(text)] on a text that the encoding of the
    file cannot hold. *)
Inductive exn : Type := IndexError | UnicodeEncodeError.

Inductive result (A : Type) : Type :=
| Returned (a : A)
| Raised (e : exn).
Arguments Returned {A} a.
Arguments Raised {A} e.

#[global] Instance result_ret : MRet result := @Returned.
#[global] Instance result_bind : MBind result := λ A B f m,
  match m with
  | Returned a => f a
  | Raised e => Raised e
  end.

(** A [dict] with [str] keys, in insertion order. *)
Definition dict (V : Type) : Type := list (string * V).

Definition keys {V} (d : dict V) : list string := d.*1.
Definition values {V} (d : dict V) : list V := d.*2.

(** [d.get(k)]. *)
Fixpoint get {V} (k : string) (d : dict V) : option V :=
  match d with
  | [] => None
  | (k', v) :: d' => if String.eqb k k' then Some v else get k d'
  end.

(** [d[k] = v]: an existing key keeps its place. *)
Fixpoint set {V} (k : string) (v : V) (d : dict V) : dict V :=
  match d with
  | [] => [(k, v)]
  | (k', v') :: d' =>
      if String.eqb k k' then (k, v) :: d' else (k', v') :: set k v d'
  end.

(** [xs[0]]. *)
Definition item0 {A} (xs : list A) : result A :=
  match xs with
  | x :: _ => Returned x
  | [] => Raised IndexError
  end.

(** The line feed. *)
Definition nl : string := String (ascii_of_N 10) EmptyString.

End Py.


(** ** [OSSynthesizer]: [synthesizer.py] *)

Module Synth.
Import Py.

(** [all_defines], [all_typedefs] and [all_functions]: a
    [defaultdict(set)] from symbol name to the systems that declare it. *)
Abbreviation index := (gmap string (gset string)).

(** [d[name].add(system)] on a [defaultdict(set)]. *)
Definition add_to (name system : string) (d : index) : index :=
  <[name := default ∅ (d !! name) ∪ {[system]}]> d.

Record tables : Type := Tables {
  all_defines : index;
  all_typedefs : index;
  all_functions : index
}.

(** One round of the loop of lines 132-146. *)
Definition scan (t : tables) (entry : string * string) : tables :=
  let '(system, content) := entry in
  let defines := Re.findall Pat.define_names content in
  let typedefs := Re.findall Pat.typedef_names content in
  let functions := Re.findall Pat.function_names content in
  Tables
    (foldl (λ d define, add_to define system d) (all_defines t) defines)
    (foldl (λ d typedef, add_to typedef system d) (all_typedefs t) typedefs)
    (foldl (λ d func, add_to func system d) (all_functions t) functions).

Definition scan_all (contents : dict string) : tables :=
  foldl scan (Tables ∅ ∅ ∅) contents.

(** The order of two items of [d.items()] under [sorted]: Python compares
    the pairs, first by key in code-point order.  The keys of a
    dictionary differ, so the sets are never compared. *)
Definition item_le (x y : string * gset string) : Prop :=
  String.le x.1 y.1.

#[global] Instance item_le_dec x y : Decision (item_le x y).
Proof. unfold item_le. apply _. Defined.

(** [sorted(d.items())]. *)
Definition sorted_items (d : index) : list (string * gset string) :=
  merge_sort item_le (map_to_list d).

(** The inner loops of lines 166-172, 182-188 and 199-205: the systems
    in the order of [contents]; the first one that is in [systems] and
    whose text matches supplies the body. *)
Fixpoint first_body (pattern : Re.regex) (systems : gset string)
    (contents : dict string) : option string :=
  match contents with
  | [] => None
  | (system, content) :: contents' =>
      if decide (system ∈ systems) then
        match Re.search pattern content with
        | Some body => Some body
        | None => first_body pattern systems contents'
        end
      else first_body pattern systems contents'
  end.

(** The guard of line 149. *)
Definition guard_token (filename : string) : string :=
  "_SYNTHESIZED_" +:+ Str.replace_char "." "_" (Str.upper filename) +:+ "_".

Section HashSeed.
(** The order in which this process iterates a set of strings. *)
Variable set_iter : gset string → list string.

Definition append (lines : list string) (line : string) : list string :=
  lines ++ [line].

(** The body of the loop of lines 161-172. *)
Definition emit_define (contents : dict string) (lines : list string)
    (item : string * gset string) : list string :=
  let '(define, systems) := item in
  let lines :=
    if 1 <? size systems then
      append lines ("/* " +:+ define +:+ " defined in: "
                    +:+ Str.join ", " (set_iter systems) +:+ " */" +:+ nl)
    else lines in
  match first_body (Pat.define_body define) systems contents with
  | Some body => append lines (body +:+ nl)
  | None => lines
  end.

(** The body of the loop of lines 175-191. *)
Definition emit_typedef (contents : dict string) (lines : list string)
    (item : string * gset string) : list string :=
  let '(typedef, systems) := item in
  let lines :=
    if 1 <? size systems then
      let lines :=
        append lines ("/* " +:+ typedef +:+ " defined in: "
                      +:+ Str.join ", " (set_iter systems) +:+ " */" +:+ nl) in
      let lines :=
        append lines ("#ifndef HAVE_" +:+ Str.upper typedef +:+ nl) in
      append lines ("#define HAVE_" +:+ Str.upper typedef +:+ nl)
    else lines in
  let lines :=
    match first_body (Pat.typedef_body typedef) systems contents with
    | Some body => append lines (body +:+ nl)
    | None => lines
    end in
  if 1 <? size systems then append lines ("#endif" +:+ nl) else lines.

(** The body of the loop of lines 194-205. *)
Definition emit_function (contents : dict string) (lines : list string)
    (item : string * gset string) : list string :=
  let '(func, systems) := item in
  let lines :=
    if 1 <? size systems then
      append lines ("/* " +:+ func +:+ " available in: "
                    +:+ Str.join ", " (set_iter systems) +:+ " */" +:+ nl)
    else lines in
  match first_body (Pat.function_body func) systems contents with
  | Some body => append lines (body +:+ nl)
  | None => lines
  end.

(** [synthesize_content(filename, contents)]. *)
Definition synthesize_content (filename : string) (contents : dict string)
  : result string :=
  if length contents =? 1 then item0 (values contents)
  else
    fallback ← item0 (values contents);
    let base :=
      default (default fallback (get "gnu" contents))
              (get "mach" contents) in
    let lines := [] in
    let lines :=
      append lines ("/*" +:+ nl +:+ " * " +:+ filename
                    +:+ " - Synthesized from multiple OS sources" +:+ nl) in
    let lines :=
      append lines (" * Sources: " +:+ Str.join ", " (keys contents)
                    +:+ nl +:+ " */" +:+ nl +:+ nl) in
    let t := scan_all contents in
    let guard := guard_token filename in
    let lines := append lines ("#ifndef " +:+ guard +:+ nl) in
    let lines := append lines ("#define " +:+ guard +:+ nl +:+ nl) in
    let lines := append lines ("/* System configuration */" +:+ nl) in
    let lines := append lines ("#ifdef SYNTHESIS_MACH" +:+ nl) in
    let lines := append lines ("  #define USE_MACH_IPC 1" +:+ nl) in
    let lines := append lines ("#endif" +:+ nl +:+ nl) in
    let lines := append lines ("/* Definitions */" +:+ nl) in
    let lines :=
      foldl (emit_define contents) lines (sorted_items (all_defines t)) in
    let lines := append lines (nl +:+ "/* Type definitions */" +:+ nl) in
    let lines :=
      foldl (emit_typedef contents) lines
            (sorted_items (all_typedefs t)) in
    let lines :=
      append lines (nl +:+ "/* Function declarations */" +:+ nl) in
    let lines :=
      foldl (emit_function contents) lines
            (sorted_items (all_functions t)) in
    let lines :=
      append lines (nl +:+ "#endif /* " +:+ guard +:+ " */" +:+ nl) in
    mret (Str.concat lines).

End HashSeed.

End Synth.

(** ** Python floats: IEEE-754 binary64 *)

Module F64.

Definition prec : Z := 53.
Definition emax : Z := 1024.

Abbreviation float := spec_float.

(** [float(n)] for an integer [n]. *)
Definition of_Z (n : Z) : float := binary_normalize prec emax n 0 false.

Definition zero : float := S754_zero false.

#[global] Instance float_eq_dec : EqDecision float.
Proof. solve_decision. Defined.

(** [a / b] on integers: the quotient rounded to the nearest float.
    Below 2^53 the conversion of [a] and [b] is exact and the division of
    the two floats rounds once. *)
Definition truediv (a b : Z) : float :=
  SFdiv prec emax (of_Z a) (of_Z b).

(** [x * n] for a float [x] and an integer [n]. *)
Definition mul_int (x : float) (n : Z) : float :=
  SFmul prec emax x (of_Z n).

(** [x < n] and [n <= x] for a float [x] and an integer [n]. *)
Definition lt_int (x : float) (n : Z) : bool := SFltb x (of_Z n).
Definition ge_int (x : float) (n : Z) : bool := SFleb (of_Z n) x.

(** The format [.1f] on a finite float that is not negative: the exact
    value rounded to the nearest tenth, ties to the even tenth. *)
Definition tenths (m : positive) (e : Z) : Z :=
  match e with
  | Zneg p =>
      let d := Z.pow_pos 2 p in
      let q := (Z.pos m * 10) `div` d in
      let r := (Z.pos m * 10) `mod` d in
      if (d <? 2 * r) || ((d =? 2 * r) && Z.odd q) then q + 1 else q
  | _ => Z.pos m * 10 * 2 ^ e
  end%Z.

Definition format_1f (x : float) : string :=
  match x with
  | S754_zero s => if s then "-0.0" else "0.0"
  | S754_infinity s => if s then "-inf" else "inf"
  | S754_nan => "nan"
  | S754_finite s m e =>
      let t := tenths m e in
      (if s then "-" else "") +:+ pretty (t `div` 10)%Z +:+ "."
      +:+ pretty (t `mod` 10)%Z
  end.

End F64.

(** ** [IPCMapper]: [ipc_mapper.py] *)

Module Ipc.

(** What [self.interfaces] holds for one system: each of the two entries
    is present once the corresponding extraction has run. *)
Record interface : Type := Interface {
  mach_messages : option (gmap string (list string));
  function_signatures : option (gmap string string)
}.

(** [self.interfaces]. *)
Abbreviation interfaces := (gmap string interface).

(** The keys of [self.systems], in the order of the dictionary. *)
Definition systems : list string :=
  ["CMU-Mach-MK83"; "Lites"; "Mach4-i386"; "GNU-OSFMach"].

(** The functions [extract_function_signatures] looks for; only these
    can become keys of a [function_signatures] entry. *)
Definition ipc_functions : list string :=
  ["mach_msg"; "mach_msg_send"; "mach_msg_receive";
   "port_allocate"; "port_deallocate"; "port_insert_right";
   "task_create"; "task_terminate"; "task_suspend";
   "thread_create"; "thread_terminate"; "thread_suspend";
   "vm_allocate"; "vm_deallocate"; "vm_map";
   "semaphore_create"; "semaphore_signal"; "semaphore_wait";
   "mutex_lock"; "mutex_unlock"; "mutex_init"].

(** [line.split(':', 1)[1]] for a line that holds a colon: the text after
    the first colon. *)
Fixpoint after_colon (line : string) : string :=
  match line with
  | EmptyString => EmptyString
  | String a t => if Char.is_code 58 a then t else after_colon t
  end.

(** Lines 95-100: what one line of the output of [grep] contributes. *)
Definition cleaned_line (line : string) : list string :=
  if Str.contains ":" line then [Str.strip (after_colon line)]
  else if Str.nonempty (Str.strip line) && negb (Str.startswith "--" line)
       then [Str.strip line]
       else [].

(** [r'\s+'] and [r'\s*([,;()])\s*']. *)
Definition spaces : Re.regex := Re.Plus true Pat.space.
Definition punctuation : Re.regex :=
  Re.Cat (Re.Star true Pat.space)
    (Re.Cat (Re.Grp (Re.Cls (λ a, Char.is_code 44 a || Char.is_code 59 a
                                  || Char.is_code 40 a || Char.is_code 41 a)))
            (Re.Star true Pat.space)).

(** [clean_signature(raw_sig)]; [None] is Python's [None]. *)
Definition clean_signature (raw_sig : string) : option string :=
  let lines := Str.split_lines raw_sig in
  let cleaned := lines ≫= cleaned_line in
  let sig := Str.join " " cleaned in
  let sig := Re.sub spaces (λ _, " ") sig in
  let sig := Re.sub punctuation (default EmptyString) sig in
  if Str.nonempty sig then Some (substring 0 200 sig) else None.

Section Grep.
(** What the [grep] pipeline of line 78 prints for a system and a function
    name. *)
Variable grep_stdout : string → string → string.

(** Lines 75-85: the dictionary [signatures]. *)
Definition signatures_of (system : string) : gmap string string :=
  foldl (λ signatures func,
           let stdout := grep_stdout system func in
           if Str.nonempty stdout then
             match clean_signature stdout with
             | Some sig => <[func := sig]> signatures
             | None => signatures
             end
           else signatures)
        ∅ ipc_functions.

(** [extract_function_signatures(system)], as the change it makes to
    [self.interfaces]: the entry of the system is created when it is
    missing, and its [function_signatures] are replaced. *)
Definition extract_function_signatures (system : string) (itf : interfaces)
  : interfaces :=
  let old := default (Interface None None) (itf !! system) in
  <[system := Interface (mach_messages old) (Some (signatures_of system))]>
    itf.

End Grep.

(** [set(self.interfaces[sys].get('function_signatures', {}).keys())]. *)
Definition signature_names (i : interface) : gset string :=
  dom (default ∅ (function_signatures i)).

(** The function names a system exports: none when the system has no
    entry in [self.interfaces]. *)
Definition exported (itf : interfaces) (sys : string) : gset string :=
  match itf !! sys with
  | Some i => signature_names i
  | None => ∅
  end.

(** Lines 168-171 on the two cardinalities. *)
Definition percentage (intersection union : nat) : F64.float :=
  if 0 <? union then
    F64.mul_int (F64.truediv (Z.of_nat intersection) (Z.of_nat union)) 100
  else F64.zero.

(** [calculate_compatibility_score(sys1, sys2)].  The integer 0 the
    function returns on its early exits is the float zero here: the two
    compare and print alike. *)
Definition calculate_compatibility_score (itf : interfaces)
    (sys1 sys2 : string) : F64.float :=
  match itf !! sys1, itf !! sys2 with
  | Some i1, Some i2 =>
      let sigs1 := signature_names i1 in
      let sigs2 := signature_names i2 in
      if bool_decide (sigs1 = ∅) || bool_decide (sigs2 = ∅) then F64.zero
      else
        let intersection := size (sigs1 ∩ sigs2) in
        let union := size (sigs1 ∪ sigs2) in
        percentage intersection union
  | _, _ => F64.zero
  end.

Inductive severity : Type := High | Medium.

(** One entry of [plan['conflicts']]. *)
Record conflict : Type := Conflict {
  conflict_systems : list string;
  compatibility : string;
  conflict_severity : severity
}.

(** The dictionary of lines 221-225. *)
Definition conflict_of (sys1 sys2 : string) (score : F64.float)
  : conflict :=
  Conflict [sys1; sys2] (F64.format_1f score +:+ "%")
           (if F64.lt_int score 25 then High else Medium).

(** Lines 219-225: what one ordered pair adds to the list. *)
Definition report (itf : interfaces) (conflicts : list conflict)
    (sys1 sys2 : string) : list conflict :=
  let score := calculate_compatibility_score itf sys1 sys2 in
  if F64.lt_int score 50 then conflicts ++ [conflict_of sys1 sys2 score]
  else conflicts.

(** Lines 216-225 over a list of system names. *)
Definition conflicts_among (names : list string) (itf : interfaces)
  : list conflict :=
  foldl (λ conflicts sys1,
           foldl (λ conflicts sys2,
                    if String.ltb sys1 sys2
                    then report itf conflicts sys1 sys2
                    else conflicts)
                 conflicts names)
        [] names.

(** [plan['conflicts']] of [generate_synthesis_plan]. *)
Definition plan_conflicts (itf : interfaces) : list conflict :=
  conflicts_among systems itf.

End Ipc.

(** ** [OSSynthesizer]: discovery and merge of the headers *)

Module Merge.
Import Py.

(** The keys of [self.systems], in the order of the dictionary. *)
Definition systems : list string := ["mach"; "lites"; "mach4"; "gnu"].

(** The headers [merge_headers] reconciles in one run. *)
Definition headers : list string :=
  ["mach.h"; "mach_types.h"; "mach_interface.h";
   "task.h"; "thread.h"; "vm_map.h"; "port.h";
   "message.h"; "syscall.h"; "errno.h"].

(** [paths[0]] under the test [paths and paths[0]] of line 84. *)
Definition first_path (paths : list string) : option string :=
  match paths with
  | p :: _ => if Str.nonempty p then Some p else None
  | [] => None
  end.

(** Lines 98-105: the directory of the merged file, below
    [self.merged_path]. *)
Definition output_dir (filename : string) : string :=
  if Str.contains ".h" filename then
    if Str.contains "mach" (Str.lower filename) then "include/mach"
    else "include/sys"
  else "kernel".

Section World.
(** What the [find] command of line 55 prints for the tree of a system
    and a file name: the matching paths, one per line, in the order in
    which [find] walks the tree. *)
Variable find_stdout : string → string → string.

(** [open(path, 'r', encoding='latin-1').read()]; [None] when it
    raises. *)
Variable read_file : string → option string.

Variable set_iter : gset string → list string.

(** [find_similar_files(filename)]. *)
Definition find_similar_files (filename : string) : dict (list string) :=
  foldl (λ similar name,
           let stdout := find_stdout name filename in
           if Str.nonempty stdout then
             let files := Str.split_lines (Str.strip stdout) in
             set name files similar
           else similar)
        [] systems.

(** Lines 82-89: one text per system, read from its first path. *)
Definition read_contents (file_paths : dict (list string)) : dict string :=
  foldl (λ contents entry,
           let '(system, paths) := entry in
           match first_path paths with
           | Some path =>
               match read_file path with
               | Some text => set system text contents
               | None => contents
               end
           | None => contents
           end)
        [] file_paths.

(** Whether the locale's encoding can hold a text.  Line 110 opens the
    output file with that encoding, the default of [open(path, 'w')],
    while the texts were decoded as latin-1; [f.write] raises
    [UnicodeEncodeError] on a text the encoding cannot hold. *)
Variable encodable : string → bool.

(** [intelligent_merge(filename, file_paths)]: the files it leaves on
    disk, each as directory, name and text, and how the call ends.
    Nothing is written when no text could be read (line 92).  When the
    merged text cannot be encoded, line 111 raises after line 110 has
    created the file, which stays empty. *)
Definition intelligent_merge (filename : string)
    (file_paths : dict (list string))
  : list (string * string * string) * result unit :=
  let contents := read_contents file_paths in
  match contents with
  | [] => ([], mret tt)
  | _ =>
      match Synth.synthesize_content set_iter filename contents with
      | Returned merged =>
          if encodable merged
          then ([(output_dir filename, filename, merged)], mret tt)
          else ([(output_dir filename, filename, EmptyString)],
                Raised UnicodeEncodeError)
      | Raised e => ([], Raised e)
      end
  end.

(** One round of the loop of lines 73-76, on the files left on disk so
    far and the state of the run: once an exception has left the loop no
    later header is looked at. *)
Definition merge_header
    (state : list (string * string * string) * result unit)
    (header : string) : list (string * string * string) * result unit :=
  match state.2 with
  | Returned _ =>
      let similar := find_similar_files header in
      match similar with
      | [] => state
      | _ =>
          let merged := intelligent_merge header similar in
          (state.1 ++ merged.1, merged.2)
      end
  | Raised _ => state
  end.

(** [merge_headers()]: the files left on disk, in the order in which
    they were written, and how the run ends. *)
Definition merge_headers : list (string * string * string) * result unit :=
  foldl merge_header ([], mret tt) headers.

End World.

End Merge.

(** ** The parts of a synthesized header, named *)

Module Layout.
Import Py Synth.

(** Lines 124-125. *)
Definition header_comment (filename : string) (contents : dict string)
  : string :=
  ("/*" +:+ nl +:+ " * " +:+ filename
   +:+ " - Synthesized from multiple OS sources" +:+ nl)
  +:+ (" * Sources: " +:+ Str.join ", " (keys contents)
       +:+ nl +:+ " */" +:+ nl +:+ nl).

(** Lines 150-151. *)
Definition opening_guard (filename : string) : string :=
  ("#ifndef " +:+ guard_token filename +:+ nl)
  +:+ ("#define " +:+ guard_token filename +:+ nl +:+ nl).

(** Lines 154-157. *)
Definition system_configuration : string :=
  ("/* System configuration */" +:+ nl)
  +:+ ("#ifdef SYNTHESIS_MACH" +:+ nl)
  +:+ ("  #define USE_MACH_IPC 1" +:+ nl)
  +:+ ("#endif" +:+ nl +:+ nl).

Definition definitions_title : string := "/* Definitions */" +:+ nl.
Definition typedefs_title : string := nl +:+ "/* Type definitions */" +:+ nl.
Definition functions_title : string :=
  nl +:+ "/* Function declarations */" +:+ nl.

(** Line 207. *)
Definition closing_guard (filename : string) : string :=
  nl +:+ "#endif /* " +:+ guard_token filename +:+ " */" +:+ nl.

(** The text of a section: what each item of the sorted table adds, one
    item after the other. *)
Definition section_text
    (emit : list string → string * gset string → list string)
    (items : list (string * gset string)) : string :=
  Str.concat (items ≫= emit []).

(** The names under which a section emits a body. *)
Definition section_names (pattern : string → Re.regex) (d : index)
    (contents : dict string) : list string :=
  (filter (λ item, is_Some (first_body (pattern item.1) item.2 contents))
          (sorted_items d)).*1.

(** The names under which the whole header emits a body, in the order of
    the text. *)
Definition emitted_names (contents : dict string) : list string :=
  let t := scan_all contents in
  section_names Pat.define_body (all_defines t) contents
  ++ section_names Pat.typedef_body (all_typedefs t) contents
  ++ section_names Pat.function_body (all_functions t) contents.

(** One of the three tables on its own: the names a pattern finds in
    each text, each recorded under the system of the text. *)
Definition collect (r : Re.regex) (d : index) (contents : dict string)
  : index :=
  foldl (λ d entry,
           foldl (λ d name, add_to name entry.1 d) d
                 (Re.findall r entry.2))
        d contents.

(** Two orders in which a process may iterate a set of strings. *)
Definition ascending (s : gset string) : list string :=
  merge_sort String.le (elements s).
Definition descending (s : gset string) : list string :=
  reverse (ascending s).

End Layout.

(** ** Predicates used in the statements *)

Module Checks.
Import Synth Ipc.

(** No name is recorded with an empty set of systems. *)
Definition inhabited_sets (d : index) : Prop :=
  ∀ n (s : gset string), d !! n = Some s → s ≠ ∅.

(** What the float arithmetic has to give for [i] common names out of
    [u] names: 100 for [i = u] only; below 50 and below 25 exactly when
    the exact quotient is; between 0 and 100. *)
Definition percentage_checked (u i : nat) : bool :=
  let p := percentage i u in
  bool_decide (bool_decide (p = F64.of_Z 100) = bool_decide (i = u))
  && bool_decide (F64.lt_int p 50 = bool_decide (2 * i < u))
  && bool_decide (F64.lt_int p 25 = bool_decide (4 * i < u))
  && bool_decide (F64.ge_int p 25 = bool_decide (u ≤ 4 * i))
  && F64.ge_int p 0
  && SFleb p (F64.of_Z 100).

(** Every system exports names from [ipc_functions] only. *)
Definition bounded (itf : interfaces) : Prop :=
  ∀ sys, exported itf sys ⊆ list_to_set ipc_functions.

End Checks.

(** ** Concrete inputs *)

Module Scenario.
Import Py.

(** A text given by its lines, each ended by a line feed. *)
Definition text (lines : list string) : string :=
  Str.concat ((λ l, l +:+ nl) <$> lines).

(** Two trees that both define the macro [FOO]; the first one defines
    [FOOBAR] on an earlier line. *)
Definition contended_macro : dict string :=
  [("mach", text ["#define FOOBAR 2"; "#define FOO 1"]);
   ("gnu", text ["#define FOO 3"])].

(** Two trees; only the first one defines [FOO], after [FOOBAR]. *)
Definition lone_macro : dict string :=
  [("mach", text ["#define FOOBAR 2"; "#define FOO 1"]);
   ("gnu", text ["#define BAZ 3"])].

(** One tree has [boolean_t] as a macro, the other as a type. *)
Definition macro_and_type : dict string :=
  [("mach", text ["#define boolean_t int"]);
   ("gnu", text ["typedef int boolean_t;"])].

(** The output of [find] for a tree that holds [port.h] twice; the walk
    reaches the directory [kernel] before [include]. *)
Definition find_port_h (system filename : string) : string :=
  if String.eqb system "mach" && String.eqb filename "port.h" then
    text ["/src/mach/kernel/port.h"; "/src/mach/include/port.h"]
  else "".

(** An interface that exports the given function names. *)
Definition exporting (names : list string) : Ipc.interface :=
  Ipc.Interface None (Some (list_to_map ((λ n, (n, "")) <$> names))).

(** Two systems share two of four names; a third exports one name and
    the fourth none. *)
Definition half_shared : Ipc.interfaces :=
  <["CMU-Mach-MK83" := exporting ["mach_msg"; "task_create"; "vm_map"]]>
  (<["Lites" := exporting ["task_create"; "vm_map"; "mutex_lock"]]>
  (<["GNU-OSFMach" := exporting ["mach_msg"]]>
  (<["Mach4-i386" := exporting []]> ∅))).

Definition read_port_h (path : string) : option string :=
  if String.eqb path "/src/mach/kernel/port.h" then
    Some (text ["typedef int port_t;"])
  else if String.eqb path "/src/mach/include/port.h" then
    Some (text ["typedef long port_t;"])
  else None.

End Scenario.

(** ** What a pattern can match *)

Module Sem.
Import Re.

(** [run r c cap c' cap']: the pattern [r] can match from [c] to [c'],
    and group 1, which held [cap] before, holds [cap'] after.  Every
    round of a repetition advances.  The relation says what can match,
    not which match the matcher prefers. *)
Inductive run : regex → cursor → option string → cursor → option string
              → Prop :=
| run_lit s c cap c' :
    eat_lit s c = Some c' → run (Lit s) c cap c' cap
| run_cls p c cap a t :
    rest c = String a t → p a = true →
    run (Cls p) c cap (Cursor (Some a) (S (pos c)) t) cap
| run_bol c cap : at_bol c = true → run Bol c cap c cap
| run_eol c cap : at_eol c = true → run Eol c cap c cap
| run_cat r1 r2 c cap c1 cap1 c2 cap2 :
    run r1 c cap c1 cap1 → run r2 c1 cap1 c2 cap2 →
    run (Cat r1 r2) c cap c2 cap2
| run_opt_some r c cap c' cap' :
    run r c cap c' cap' → run (Opt r) c cap c' cap'
| run_opt_none r c cap : run (Opt r) c cap c cap
| run_star_stop g r c cap : run (Star g r) c cap c cap
| run_star_more g r c cap c1 cap1 c2 cap2 :
    run r c cap c1 cap1 → pos c < pos c1 →
    run (Star g r) c1 cap1 c2 cap2 →
    run (Star g r) c cap c2 cap2
| run_grp r c cap c' cap' :
    run r c cap c' cap' →
    run (Grp r) c cap c' (Some (substring 0 (pos c' - pos c) (rest c))).

(** [c'] is [c] moved forward over some text of the subject. *)
Definition later (c c' : cursor) : Prop :=
  ∃ consumed : string, eat_lit consumed c = Some c'.

(** The pattern has a capturing group. *)
Fixpoint has_group (r : regex) : bool :=
  match r with
  | Lit _ | Cls _ | Bol | Eol => false
  | Cat r1 r2 => has_group r1 || has_group r2
  | Opt r1 | Star _ r1 => has_group r1
  | Grp _ => true
  end.

End Sem.

(** ** Predicates on texts *)

Module Text.

(** Every character of the text is in the class. *)
Fixpoint all (p : ascii → bool) (s : string) : bool :=
  match s with
  | EmptyString => true
  | String a t => p a && all p t
  end.

(** The annotation of a contended name: lines 163 and 177 with
    [verb = "defined"], line 196 with [verb = "available"]. *)
Definition annotation (verb name : string) (listed : list string) : string :=
  "/* " +:+ name +:+ " " +:+ verb +:+ " in: " +:+ Str.join ", " listed
  +:+ " */" +:+ Py.nl.

End Text.

(** ** The comparison of the interfaces and the unified interface *)

Module Compare.
Import Py Ipc.

Inductive status : Type := Present | Missing.

#[global] Instance status_eq_dec : EqDecision status.
Proof. solve_decision. Defined.

(** Lines 142-146: every name that some entry of [self.interfaces] holds a
    signature for. *)
Definition all_functions (itf : interfaces) : gset string :=
  ⋃ ((λ entry, signature_names entry.2) <$> map_to_list itf).

(** Line 153: ['Present' if func in sigs else 'Missing']. *)
Definition status_of (i : interface) (func : string) : status :=
  if bool_decide (func ∈ signature_names i) then Present else Missing.

(** Lines 150-153 on the row of one function alone. *)
Definition row_of (itf : interfaces) (func : string) (names : list string)
    (row : dict status) : dict status :=
  foldl (λ row system,
           match itf !! system with
           | Some i => set system (status_of i func) row
           | None => row
           end)
        row names.

Section HashSeed.
(** The order in which this process iterates a set of strings. *)
Variable set_iter : gset string → list string.

(** [compare_interfaces()].  [comparison] is a [defaultdict(dict)]: the
    row of a function comes into being with the first assignment of line
    153, so a function gets no row when no system of [self.systems] has
    an entry in [self.interfaces]. *)
Definition compare_interfaces (itf : interfaces) : dict (dict status) :=
  foldl (λ comparison func,
           foldl (λ comparison system,
                    match itf !! system with
                    | Some i =>
                        let row := default [] (get func comparison) in
                        set func (set system (status_of i func) row)
                            comparison
                    | None => comparison
                    end)
                 comparison systems)
        [] (set_iter (all_functions itf)).

End HashSeed.

(** Line 204: [[s for s, status in systems.items() if status == 'Present']]. *)
Definition present_in (row : dict status) : list string :=
  (List.filter (λ entry, bool_decide (entry.2 = Present)) row).*1.

(** Lines 206-211: the label of a function, [None] when the function gets
    no entry. *)
Definition classify (present : list string) : option string :=
  if 3 <=? length present then Some "Core - present in most systems"
  else if length present =? 2
       then Some ("Optional - in " +:+ Str.join ", " present)
       else match present with
            | [system] => Some ("System-specific - only in " +:+ system)
            | _ => None
            end.

(** Lines 203-211: [plan['unified_interface']]. *)
Definition unified_interface (comparison : dict (dict status))
  : dict string :=
  foldl (λ plan entry,
           let '(func, systems) := entry in
           match classify (present_in systems) with
           | Some label => set func label plan
           | None => plan
           end)
        [] comparison.

End Compare.

(** ** The call graph *)

Module Graph.

(** Line 122. *)
Definition ipc_funcs : list string :=
  ["mach_msg"; "port_allocate"; "task_create"; "thread_create"].

Section Cscope.
(** What the pipeline of line 126 prints for a system and a function: the
    functions that call it, one per line. *)
Variable cscope_stdout : string → string → string.

(** [build_call_graph(system)].  The graph is built with [add_edge]
    only, so it is its set of edges, each from a caller to the function
    it calls. *)
Definition build_call_graph (system : string) : gset (string * string) :=
  foldl (λ G func,
           let stdout := cscope_stdout system func in
           if Str.nonempty stdout then
             let callers := Str.split_lines (Str.strip stdout) in
             foldl (λ G caller,
                      if Str.nonempty caller && negb (String.eqb caller func)
                      then {[ (caller, func) ]} ∪ G
                      else G)
                   G (take 10 callers)
           else G)
        ∅ ipc_funcs.

End Cscope.

End Graph.

(** ** The extraction loop of [run_analysis] *)

Module Analysis.
Import Ipc.

Section Commands.
(** What [extract_mach_messages] collects for a system: the dictionary
    [dict(msg_types)] of line 56. *)
Variable mach_messages_of : string → gmap string (list string).

(** What the [grep] pipeline of line 78 prints for a system and a function
    name. *)
Variable grep_stdout : string → string → string.

(** [extract_mach_messages(system)], as the change it makes to
    [self.interfaces]: the entry of the system is created when it is
    missing, and its [mach_messages] are replaced. *)
Definition extract_mach_messages (system : string) (itf : interfaces)
  : interfaces :=
  let old := default (Interface None None) (itf !! system) in
  <[system := Interface (Some (mach_messages_of system))
                        (function_signatures old)]> itf.

(** Lines 245-249 of [run_analysis], from an empty [self.interfaces];
    [build_call_graph] leaves [self.interfaces] as it is. *)
Definition analysed : interfaces :=
  foldl (λ itf system,
           extract_function_signatures grep_stdout system
             (extract_mach_messages system itf))
        ∅ systems.

End Commands.

End Analysis.

(** ** Predicates on tables and runs *)

Module Facts.
Import Py Synth.



(** The code points of latin-1 whose upper case lies in latin-1: all but
    U+00B5 and U+00FF. *)
Definition upper_in_latin1 (a : ascii) : bool :=
  negb (Char.is_code 181 a || Char.is_code 255 a).

(** ASCII letters in upper case, digits and the underscore: the
    characters of a preprocessor identifier in upper case. *)
Definition is_guard_char (a : ascii) : bool :=
  Char.between 65 90 a || Char.between 48 57 a || Char.is_code 95 a.

(** ASCII letters, digits, the underscore and the full stop. *)
Definition is_plain_name_char (a : ascii) : bool :=
  Char.between 65 90 a || Char.between 97 122 a || Char.between 48 57 a
  || Char.is_code 95 a || Char.is_code 46 a.

(** The three kinds of declaration [synthesize_content] collects, each
    with its table, the pattern that extracts its names and the pattern
    that fetches the body of a name. *)
Inductive kind : Type := Macro | Typedef | Function.

Definition table (k : kind) (t : tables) : index :=
  match k with
  | Macro => all_defines t
  | Typedef => all_typedefs t
  | Function => all_functions t
  end.

Definition names_pattern (k : kind) : Re.regex :=
  match k with
  | Macro => Pat.define_names
  | Typedef => Pat.typedef_names
  | Function => Pat.function_names
  end.

Definition body_pattern (k : kind) (name : string) : Re.regex :=
  match k with
  | Macro => Pat.define_body name
  | Typedef => Pat.typedef_body name
  | Function => Pat.function_body name
  end.

(** Not white space, or the blank itself. *)
Definition is_blank_or_visible (a : ascii) : bool :=
  negb (Char.is_space a) || Char.is_code 32 a.

(** What the float arithmetic has to give for [i] common names out of
    [u] names: zero for [i = 0] only. *)
Definition zero_checked (u i : nat) : bool :=
  bool_decide (bool_decide (Ipc.percentage i u = F64.zero)
               = bool_decide (i = 0)).

(** The pairs that pass the test [sys1 < sys2] of line 218, in the order
    in which the two loops of lines 216-217 reach them. *)
Definition ascending_pairs : list (list string) :=
  Ipc.systems ≫= λ sys1, Ipc.systems ≫= λ sys2,
    if String.ltb sys1 sys2 then [[sys1; sys2]] else [].

End Facts.

(** ** Sample outputs of the commands *)

Module Sample.

(** The output of [grep] for a tree in which two of the functions are
    declared. *)
Definition grep_stdout (system func : string) : string :=
  if String.eqb func "mach_msg"
  then "ipc/mach_msg.h:extern int  mach_msg (void *msg) ;"
  else if String.eqb func "vm_map" && String.eqb system "Lites"
       then "vm/vm_map.h:int vm_map(int);"
       else "".

(** [self.interfaces] after [extract_function_signatures] has run for
    two systems. *)
Definition extracted : Ipc.interfaces :=
  Ipc.extract_function_signatures grep_stdout "Lites"
    (Ipc.extract_function_signatures grep_stdout "CMU-Mach-MK83" ∅).

(** Two trees that define the same type. *)
Definition contended_type : Py.dict string :=
  [("mach", Scenario.text ["typedef int port_t;"]);
   ("gnu", Scenario.text ["typedef long port_t;"])].

(** A locale whose encoding holds ASCII only. *)
Definition ascii_only (text : string) : bool :=
  Text.all (Char.between 0 127) text.

(** Two trees hold [task.h], one of them with a letter outside ASCII in
    the body of a macro; no other header is found. *)
Definition find_task_h (system filename : string) : string :=
  if String.eqb filename "task.h"
     && (String.eqb system "mach" || String.eqb system "gnu")
  then "/src/" +:+ system +:+ "/task.h" +:+ Py.nl
  else "".

Definition read_task_h (path : string) : option string :=
  if String.eqb path "/src/mach/task.h" then
    Some (Scenario.text
            ["#define OWNER Andr" +:+ String (ascii_of_N 233) ""])
  else if String.eqb path "/src/gnu/task.h" then
    Some (Scenario.text ["typedef int task_t;"])
  else None.

(** Two trees that declare the same function. *)
Definition two_prototypes : Py.dict string :=
  [("mach", Scenario.text ["extern int port_send(int port, int msg);"]);
   ("gnu", Scenario.text ["int port_send(int port);"])].

(** The output of the cscope pipeline for a tree in which [mach_msg] has
    two callers and is listed as a caller of itself. *)
Definition cscope_stdout (system func : string) : string :=
  if String.eqb func "mach_msg"
  then Scenario.text ["msg_send"; "mach_msg"; "msg_receive"]
  else "".


End Sample.

(** * Properties *)

(** ** Strings *)

Section StringFacts.

Lemma append_cons (a : ascii) (s t : string) :
  String a s +:+ t = String a (s +:+ t).
Proof. reflexivity. Qed.

Lemma append_nil_l (s : string) : "" +:+ s = s.
Proof. reflexivity. Qed.

Lemma append_nil_r (s : string) : s +:+ "" = s.
Proof.
  induction s as [|a s IH]; [done|]. by rewrite append_cons, IH.
Qed.

Lemma append_assoc (s1 s2 s3 : string) :
  (s1 +:+ s2) +:+ s3 = s1 +:+ (s2 +:+ s3).
Proof.
  induction s1 as [|a s1 IH]; [done|]. by rewrite !append_cons, IH.
Qed.

Lemma concat_cons (x : string) (xs : list string) :
  Str.concat (x :: xs) = x +:+ Str.concat xs.
Proof.
  unfold Str.concat. destruct xs as [|y ys]; simpl.
  - by rewrite append_nil_r.
  - done.
Qed.

Lemma concat_app (xs ys : list string) :
  Str.concat (xs ++ ys) = Str.concat xs +:+ Str.concat ys.
Proof.
  induction xs as [|x xs IH].
  - done.
  - rewrite <- app_comm_cons, !concat_cons, IH. by rewrite append_assoc.
Qed.

Lemma concat_singleton (x : string) : Str.concat [x] = x.
Proof. done. Qed.

End StringFacts.

(** ** Sorted tables *)

Section SortedItems.
Import Synth.

#[local] Instance item_le_total : Total item_le.
Proof. intros x y. unfold item_le. apply (total String.le). Qed.

#[local] Instance item_le_trans : Transitive item_le.
Proof. intros x y z. unfold item_le. apply (transitivity (R:=String.le)). Qed.

Lemma sorted_items_perm (d : index) : sorted_items d ≡ₚ map_to_list d.
Proof. apply merge_sort_Permutation. Qed.

Lemma sorted_items_nodup (d : index) : NoDup (sorted_items d).*1.
Proof.
  rewrite (sorted_items_perm d). apply NoDup_fst_map_to_list.
Qed.

Lemma sorted_items_le (d : index) :
  StronglySorted String.le (sorted_items d).*1.
Proof.
  apply (StronglySorted_fmap fst item_le String.le).
  - intros x y Hxy. exact Hxy.
  - apply StronglySorted_merge_sort; apply _.
Qed.

(** A list without repetition that ascends weakly ascends strictly. *)
Lemma strongly_sorted_strict (l : list string) :
  StronglySorted String.le l → NoDup l →
  StronglySorted (strict String.le) l.
Proof.
  induction 1 as [|x l Hl IH Hx]; intros Hnd.
  - constructor.
  - apply NoDup_cons in Hnd as [Hnotin Hnd].
    constructor; [by apply IH|].
    rewrite Forall_forall in Hx |- *. intros y Hy. split.
    + by apply Hx.
    + intros Hyx. apply Hnotin.
      assert (x = y) as -> by (apply (anti_symm String.le); auto).
      done.
Qed.

(** [sorted(d.items())] lists every key once, in strictly ascending
    code-point order. *)
Lemma sorted_items_strict (d : index) :
  StronglySorted (strict String.le) (sorted_items d).*1.
Proof.
  apply strongly_sorted_strict;
    [apply sorted_items_le | apply sorted_items_nodup].
Qed.

Lemma elem_of_sorted_items (d : index) (name : string) (s : gset string) :
  (name, s) ∈ sorted_items d ↔ d !! name = Some s.
Proof. rewrite (sorted_items_perm d). apply elem_of_map_to_list. Qed.

End SortedItems.

(** ** The synthesized text, part by part *)

Section Assembly.
Import Py Synth Layout.
Variable set_iter : gset string → list string.

Lemma emit_define_app contents lines item :
  emit_define set_iter contents lines item
  = lines ++ emit_define set_iter contents [] item.
Proof.
  destruct item as [define systems]. unfold emit_define, append.
  destruct (1 <? size systems);
    destruct (first_body _ _ _); simpl;
    rewrite ?app_nil_r, <- ?app_assoc; done.
Qed.

Lemma emit_typedef_app contents lines item :
  emit_typedef set_iter contents lines item
  = lines ++ emit_typedef set_iter contents [] item.
Proof.
  destruct item as [typedef systems]. unfold emit_typedef, append.
  destruct (1 <? size systems);
    destruct (first_body _ _ _); simpl;
    rewrite ?app_nil_r, <- ?app_assoc; done.
Qed.

Lemma emit_function_app contents lines item :
  emit_function set_iter contents lines item
  = lines ++ emit_function set_iter contents [] item.
Proof.
  destruct item as [func systems]. unfold emit_function, append.
  destruct (1 <? size systems);
    destruct (first_body _ _ _); simpl;
    rewrite ?app_nil_r, <- ?app_assoc; done.
Qed.

(** A loop whose body only appends adds the bodies' lines in order. *)
Lemma foldl_emit {A B} (emit : list B → A → list B)
    (lines : list B) (items : list A) :
  (∀ lines item, emit lines item = lines ++ emit [] item) →
  foldl emit lines items = lines ++ (items ≫= emit []).
Proof.
  intros Happ. revert lines.
  induction items as [|item items IH]; intros lines; simpl.
  - by rewrite app_nil_r.
  - rewrite IH, (Happ lines item). by rewrite <- app_assoc.
Qed.

(** For two or more sources, the text is the concatenation of the named
    parts. *)
Lemma synthesize_content_parts filename contents :
  contents ≠ [] → length contents ≠ 1 →
  synthesize_content set_iter filename contents
  = Returned
      (header_comment filename contents
       +:+ opening_guard filename
       +:+ system_configuration
       +:+ definitions_title
       +:+ section_text (emit_define set_iter contents)
             (sorted_items (all_defines (scan_all contents)))
       +:+ typedefs_title
       +:+ section_text (emit_typedef set_iter contents)
             (sorted_items (all_typedefs (scan_all contents)))
       +:+ functions_title
       +:+ section_text (emit_function set_iter contents)
             (sorted_items (all_functions (scan_all contents)))
       +:+ closing_guard filename).
Proof.
  intros Hne Hlen. unfold synthesize_content.
  destruct (length contents =? 1) eqn:Heq.
  { apply Nat.eqb_eq in Heq. done. }
  destruct contents as [|[system text] rest]; [done|].
  cbn [values fmap list_fmap item0 mbind result_bind snd].
  unfold mret, result_ret. f_equal. unfold append.
  rewrite !(foldl_emit _ _ _ (emit_define_app _)).
  rewrite !(foldl_emit _ _ _ (emit_typedef_app _)).
  rewrite !(foldl_emit _ _ _ (emit_function_app _)).
  rewrite !concat_app, !concat_singleton.
  unfold header_comment, opening_guard, system_configuration,
    definitions_title, typedefs_title, functions_title, closing_guard,
    section_text.
  change (Str.concat []) with "". rewrite append_nil_l.
  rewrite !append_assoc. reflexivity.
Qed.

End Assembly.

(** ** One source: the text is passed through *)

Section SingleSource.
Import Py Synth Merge.
Variable set_iter : gset string → list string.

Lemma synthesize_content_returns filename contents :
  contents ≠ [] →
  ∃ text, synthesize_content set_iter filename contents = Returned text.
Proof.
  intros Hne. destruct (decide (length contents = 1)) as [Hlen|Hlen].
  - unfold synthesize_content. rewrite Hlen. simpl.
    destruct contents as [|[system text] rest]; [done|]. by exists text.
  - rewrite synthesize_content_parts by done. by eexists.
Qed.

(** When [intelligent_merge] could read one system only, the file it
    writes holds exactly the text of that system, when the encoding of
    the output can hold it. *)
Lemma intelligent_merge_single_source read_file encodable filename
    file_paths system text :
  read_contents read_file file_paths = [(system, text)] →
  intelligent_merge read_file set_iter encodable filename file_paths
  = if encodable text
    then ([(output_dir filename, filename, text)], Returned tt)
    else ([(output_dir filename, filename, EmptyString)],
          Raised UnicodeEncodeError).
Proof.
  intros Hread. unfold intelligent_merge. rewrite Hread. reflexivity.
Qed.

(** C10. With exactly one source in [contents], [synthesize_content]
    returns the text of that source as it is: no guard, no comment and
    no section is added. *)
Theorem single_source_returned_unchanged filename contents :
  length contents = 1 →
  ∃ system text,
    contents = [(system, text)]
    ∧ synthesize_content set_iter filename contents = Returned text.
Proof.
  intros Hlen. destruct contents as [|[system text] rest]; [done|].
  destruct rest as [|entry rest]; [|done].
  exists system, text. split; reflexivity.
Qed.

End SingleSource.

Lemma single_source_returned_unchanged_witness :
  let contents := [("lites", Scenario.text ["typedef int port_t;"])] in
  length contents = 1
  ∧ Synth.synthesize_content Layout.ascending "port.h" contents
    = Py.Returned (Scenario.text ["typedef int port_t;"]).
Proof.
  intros contents. assert (length contents = 1) as Hlen by reflexivity.
  split; [exact Hlen|].
  destruct (single_source_returned_unchanged Layout.ascending "port.h"
            contents Hlen)
    as (system & text & Heq & ->).
  injection Heq as _ <-. reflexivity.
Defined.

(** ** The provenance tables *)

Section Provenance.
Import Py Synth Layout Checks.

Lemma add_to_spec name system (d : index) n sys :
  sys ∈ default ∅ (add_to name system d !! n)
  ↔ sys ∈ default ∅ (d !! n) ∨ (sys = system ∧ n = name).
Proof.
  unfold add_to. destruct (decide (name = n)) as [->|Hne].
  - rewrite lookup_insert_eq. simpl. set_solver.
  - rewrite lookup_insert_ne by done. naive_solver.
Qed.

Lemma add_all_spec system names (d : index) n sys :
  sys ∈ default ∅ (foldl (λ d name, add_to name system d) d names !! n)
  ↔ sys ∈ default ∅ (d !! n) ∨ (sys = system ∧ n ∈ names).
Proof.
  revert d. induction names as [|name names IH]; intros d; simpl.
  - set_solver.
  - rewrite IH, add_to_spec. set_solver.
Qed.

Lemma collect_spec r contents (d : index) n sys :
  sys ∈ default ∅ (collect r d contents !! n)
  ↔ sys ∈ default ∅ (d !! n)
    ∨ ∃ content, (sys, content) ∈ contents ∧ n ∈ Re.findall r content.
Proof.
  unfold collect. revert d.
  induction contents as [|[system content] contents IH]; intros d; simpl.
  - set_solver.
  - rewrite IH, add_all_spec. split.
    + intros [[?|[-> ?]]|(c & ? & ?)]; [by left|right..].
      * exists content. split; [left|done].
      * exists c. split; [by right|done].
    + intros [?|(c & Hin & ?)]; [by left; left|].
      apply elem_of_cons in Hin as [[= -> ->]|?].
      * left; right. done.
      * right. by exists c.
Qed.

Lemma add_to_inhabited name system d :
  inhabited_sets d → inhabited_sets (add_to name system d).
Proof.
  intros Hd n s. unfold add_to. destruct (decide (name = n)) as [->|Hne].
  - rewrite lookup_insert_eq. intros [= <-]. set_solver.
  - rewrite lookup_insert_ne by done. apply Hd.
Qed.

Lemma collect_inhabited r contents d :
  inhabited_sets d → inhabited_sets (collect r d contents).
Proof.
  unfold collect. revert d.
  induction contents as [|[system content] contents IH]; intros d Hd;
    simpl; [done|].
  apply IH. generalize (Re.findall r content). intros names.
  revert d Hd. induction names as [|name names IHn]; intros d Hd; simpl;
    [done|].
  apply IHn. by apply add_to_inhabited.
Qed.

Lemma scan_tables t contents :
  all_defines (foldl scan t contents)
    = collect Pat.define_names (all_defines t) contents
  ∧ all_typedefs (foldl scan t contents)
    = collect Pat.typedef_names (all_typedefs t) contents
  ∧ all_functions (foldl scan t contents)
    = collect Pat.function_names (all_functions t) contents.
Proof.
  unfold collect. revert t.
  induction contents as [|[system content] contents IH]; intros t;
    cbn [foldl].
  - done.
  - destruct (IH (scan t (system, content))) as (-> & -> & ->). done.
Qed.

(** The key of every table entry is a name that the pattern finds in the
    text of some system, and the entry holds exactly the systems in
    whose text it is found. *)
Lemma index_spec r contents name (systems : gset string) :
  collect r ∅ contents !! name = Some systems →
  systems ≠ ∅
  ∧ ∀ sys, sys ∈ systems
      ↔ ∃ content, (sys, content) ∈ contents
                   ∧ name ∈ Re.findall r content.
Proof.
  intros Hlook. split.
  - eapply collect_inhabited; [|exact Hlook]. intros n s.
    by rewrite lookup_empty.
  - intros sys.
    pose proof (collect_spec r contents ∅ name sys) as Hspec.
    rewrite Hlook, lookup_empty in Hspec. simpl in Hspec.
    rewrite Hspec. set_solver.
Qed.

Lemma index_complete r contents name sys content :
  (sys, content) ∈ contents → name ∈ Re.findall r content →
  is_Some (collect r ∅ contents !! name).
Proof.
  intros Hin Hname.
  pose proof (collect_spec r contents ∅ name sys) as Hspec.
  destruct (collect r ∅ contents !! name) as [s|]; [by eexists|].
  simpl in Hspec. exfalso.
  assert (sys ∈ (∅ : gset string)) as Hfalse; [|set_solver].
  apply Hspec. right. by exists content.
Qed.

End Provenance.

(** ** Which systems an annotation lists, which body an entry gets *)

Section Resolution.
Import Py Synth Layout.
Variable set_iter : gset string → list string.
Hypothesis set_iter_perm : ∀ s, set_iter s ≡ₚ elements s.

(** An item of the sorted table of the macros carries exactly the systems
    in whose text [define_names] finds the name, and the annotation lists
    exactly these. *)
Lemma define_item_systems contents define (systems : gset string) :
  (define, systems) ∈ sorted_items (all_defines (scan_all contents)) →
  systems ≠ ∅
  ∧ ∀ sys, sys ∈ set_iter systems
      ↔ ∃ content, (sys, content) ∈ contents
                   ∧ define ∈ Re.findall Pat.define_names content.
Proof.
  intros Hitem. apply elem_of_sorted_items in Hitem.
  unfold scan_all in Hitem.
  destruct (scan_tables (Tables ∅ ∅ ∅) contents) as (Hd & _ & _).
  rewrite Hd in Hitem. simpl in Hitem.
  apply index_spec in Hitem as [Hne Hsys]. split; [done|].
  intros sys. rewrite (set_iter_perm systems), elem_of_elements.
  apply Hsys.
Qed.

(** The body of an entry comes from the first system, in the order of
    [contents], that is among [systems] and in whose text the body pattern
    matches somewhere; it is the leftmost match in that text. *)
Lemma first_body_spec pattern (systems : gset string) contents body :
  first_body pattern systems contents = Some body
  ↔ ∃ before system content after,
      contents = before ++ (system, content) :: after
      ∧ system ∈ systems
      ∧ Re.search pattern content = Some body
      ∧ Forall (λ entry, entry.1 ∈ systems →
                         Re.search pattern entry.2 = None) before.
Proof.
  induction contents as [|[system content] contents IH]; simpl.
  - split; [done|]. intros (before & ? & ? & ? & Heq & _).
    by destruct before.
  - split.
    + destruct (decide (system ∈ systems)) as [Hin|Hout].
      * destruct (Re.search pattern content) as [b|] eqn:Hsearch.
        -- intros [= ->]. exists [], system, content, contents.
           repeat split; [done..|constructor].
        -- intros Hrest. apply IH in Hrest
             as (before & s & c & after & -> & Hs & Hb & Hall).
           exists ((system, content) :: before), s, c, after.
           repeat split; try done. by constructor.
      * intros Hrest. apply IH in Hrest
          as (before & s & c & after & -> & Hs & Hb & Hall).
        exists ((system, content) :: before), s, c, after.
        repeat split; try done. by constructor.
    + intros (before & s & c & after & Heq & Hs & Hb & Hall).
      destruct before as [|entry before]; simpl in Heq.
      * injection Heq as -> -> ->. rewrite decide_True by done.
        by rewrite Hb.
      * injection Heq as <- ->. apply Forall_cons in Hall as [Hentry Hall].
        simpl in Hentry.
        assert (first_body pattern systems
                  (before ++ (s, c) :: after) = Some body) as Hrest.
        { apply IH. by exists before, s, c, after. }
        destruct (decide (system ∈ systems)) as [Hin|Hout]; [|done].
        by rewrite (Hentry Hin).
Qed.

End Resolution.

(** ** The layout of a synthesized header *)

Section LayoutFacts.
Import Py Synth Layout.

(** C4, as the program has it. For two or more sources the text is, in
    this order: the comment that lists the sources, the opening guard,
    the system configuration block, the section of the macros, the
    section of the type definitions, the section of the function
    declarations, and the closing guard; each section runs through its
    names in strictly ascending order. *)
Theorem synthesized_layout (set_iter : gset string → list string)
    (filename : string) (contents : dict string) :
  contents ≠ [] → length contents ≠ 1 →
  let t := scan_all contents in
  synthesize_content set_iter filename contents
  = Returned
      (header_comment filename contents
       +:+ opening_guard filename
       +:+ system_configuration
       +:+ definitions_title
       +:+ section_text (emit_define set_iter contents)
             (sorted_items (all_defines t))
       +:+ typedefs_title
       +:+ section_text (emit_typedef set_iter contents)
             (sorted_items (all_typedefs t))
       +:+ functions_title
       +:+ section_text (emit_function set_iter contents)
             (sorted_items (all_functions t))
       +:+ closing_guard filename)
  ∧ StronglySorted (strict String.le) (sorted_items (all_defines t)).*1
  ∧ StronglySorted (strict String.le) (sorted_items (all_typedefs t)).*1
  ∧ StronglySorted (strict String.le) (sorted_items (all_functions t)).*1.
Proof.
  intros Hne Hlen t. split; [|repeat split; apply sorted_items_strict].
  by apply synthesize_content_parts.
Qed.

Lemma synthesized_layout_witness :
  let contents := Scenario.contended_macro in
  let t := scan_all contents in
  contents ≠ [] ∧ length contents ≠ 1
  ∧ synthesize_content ascending "port.h" contents
    = Returned
        (header_comment "port.h" contents
         +:+ opening_guard "port.h"
         +:+ system_configuration
         +:+ definitions_title
         +:+ section_text (emit_define ascending contents)
               (sorted_items (all_defines t))
         +:+ typedefs_title
         +:+ section_text (emit_typedef ascending contents)
               (sorted_items (all_typedefs t))
         +:+ functions_title
         +:+ section_text (emit_function ascending contents)
               (sorted_items (all_functions t))
         +:+ closing_guard "port.h").
Proof.
  intros contents t.
  assert (contents ≠ []) as Hne by done.
  assert (length contents ≠ 1) as Hlen by (simpl; lia).
  split; [exact Hne|]. split; [exact Hlen|].
  exact (proj1 (synthesized_layout ascending "port.h" contents Hne Hlen)).
Defined.

(** C4, as stated, fails: the text does not start with the opening
    guard; the comment that lists the sources comes first. *)
Lemma guard_does_not_open_the_text :
  ∃ out,
    synthesize_content ascending "port.h" Scenario.contended_macro
    = Returned out
    ∧ Str.startswith (opening_guard "port.h") out = false
    ∧ Str.startswith
        (header_comment "port.h" Scenario.contended_macro
         +:+ opening_guard "port.h") out = true.
Proof.
  eexists. split; [vm_compute; reflexivity|].
  split; vm_compute; reflexivity.
Qed.

End LayoutFacts.

(** ** No check for repeated names *)

Section Duplicates.
Import Py Synth Layout.

(** C9, as the program has it. [synthesize_content] makes no check for
    repeated names and has no failure of its own: from one or more
    sources it always returns a text, whatever names the sources
    declare. *)
Theorem synthesis_returns_without_duplicate_check
    (set_iter : gset string → list string) (filename : string)
    (contents : dict string) :
  contents ≠ [] →
  ∃ out, synthesize_content set_iter filename contents = Returned out.
Proof.
  intros Hne. destruct (decide (length contents = 1)) as [Hlen|Hlen].
  - destruct contents as [|[system text] [|entry rest]]; try done.
    by exists text.
  - rewrite synthesize_content_parts by done. by eexists.
Qed.

Lemma synthesis_returns_without_duplicate_check_witness :
  let contents := Scenario.macro_and_type in
  contents ≠ []
  ∧ ∃ out, synthesize_content ascending "types.h" contents = Returned out.
Proof.
  intros contents. assert (contents ≠ []) as Hne by done.
  split; [exact Hne|].
  exact (synthesis_returns_without_duplicate_check
           ascending "types.h" contents Hne).
Defined.

(** C9, as stated, fails: [boolean_t] is emitted twice, as a macro and
    as a type, and the text is returned all the same. *)
Lemma repeated_name_is_emitted :
  emitted_names Scenario.macro_and_type = ["boolean_t"; "boolean_t"]
  ∧ ∃ out,
      synthesize_content ascending "types.h" Scenario.macro_and_type
      = Returned out
      ∧ Str.contains ("#define boolean_t int" +:+ nl) out = true
      ∧ Str.contains ("typedef int boolean_t;" +:+ nl) out = true.
Proof.
  split; [vm_compute; reflexivity|].
  eexists. split; [vm_compute; reflexivity|].
  split; vm_compute; reflexivity.
Qed.

End Duplicates.

(** ** The bodies of the macros *)

Section MacroBodies.
Import Py Synth Layout.

(** C1 on [Scenario.contended_macro]. [FOO] is declared by both trees and
    the first of them gives [#define FOO 1].  The pattern that fetches
    the body has no word boundary after the name: its first match in the
    first tree is the line of [FOOBAR], and that line is emitted under
    the annotation of [FOO]. *)
Lemma contended_macro_gets_another_body :
  all_defines (scan_all Scenario.contended_macro) !! "FOO"
    = Some {["mach"; "gnu"]}
  ∧ Re.findall Pat.define_names (Scenario.text ["#define FOOBAR 2"; "#define FOO 1"])
    = ["FOOBAR"; "FOO"]
  ∧ first_body (Pat.define_body "FOO") {["mach"; "gnu"]}
      Scenario.contended_macro = Some "#define FOOBAR 2"
  ∧ ∃ out,
      synthesize_content ascending "port.h" Scenario.contended_macro
      = Returned out
      ∧ Str.contains ("/* FOO defined in: gnu, mach */" +:+ nl
                      +:+ "#define FOOBAR 2" +:+ nl) out = true
      ∧ Str.contains "#define FOO 1" out = false.
Proof.
  split; [vm_compute; reflexivity|].
  split; [vm_compute; reflexivity|].
  split; [vm_compute; reflexivity|].
  eexists. split; [vm_compute; reflexivity|].
  split; vm_compute; reflexivity.
Qed.

(** C3 on [Scenario.lone_macro]. Only the first tree declares [FOO], as
    [#define FOO 1]; the text holds the line of [FOOBAR] in its place. *)
Lemma lone_macro_body_is_lost :
  all_defines (scan_all Scenario.lone_macro) !! "FOO" = Some {["mach"]}
  ∧ ∃ out,
      synthesize_content ascending "port.h" Scenario.lone_macro
      = Returned out
      ∧ Str.contains ("#define FOOBAR 2" +:+ nl
                      +:+ "#define FOOBAR 2" +:+ nl) out = true
      ∧ Str.contains "#define FOO 1" out = false.
Proof.
  split; [vm_compute; reflexivity|].
  eexists. split; [vm_compute; reflexivity|].
  split; vm_compute; reflexivity.
Qed.

End MacroBodies.

(** ** The order of a set of systems *)

Section SetOrder.
Import Py Synth Layout.

Lemma ascending_perm (s : gset string) : ascending s ≡ₚ elements s.
Proof. apply merge_sort_Permutation. Qed.

Lemma descending_perm (s : gset string) : descending s ≡ₚ elements s.
Proof.
  unfold descending. rewrite reverse_Permutation. apply ascending_perm.
Qed.

(** C2 on [Scenario.contended_macro]. The annotation of a contended
    name joins a set; two processes that iterate the set in different
    orders write different texts from the same sources. *)
Lemma text_depends_on_set_order :
  ascending {["mach"; "gnu"]} = ["gnu"; "mach"]
  ∧ descending {["mach"; "gnu"]} = ["mach"; "gnu"]
  ∧ synthesize_content ascending "port.h" Scenario.contended_macro
    ≠ synthesize_content descending "port.h" Scenario.contended_macro.
Proof.
  split; [vm_compute; reflexivity|].
  split; [vm_compute; reflexivity|].
  intros Heq.
  set (mentions r := match r with
                     | Returned out =>
                         Str.contains "FOO defined in: gnu, mach" out
                     | Raised _ => false
                     end).
  assert (mentions (synthesize_content ascending "port.h"
                      Scenario.contended_macro)
          = mentions (synthesize_content descending "port.h"
                        Scenario.contended_macro)) as Hm
    by (by rewrite Heq).
  vm_compute in Hm. discriminate Hm.
Qed.

End SetOrder.

(** ** Guard tokens *)

Section GuardTokens.
Import Synth Merge.







Example guard_token_full_stop :
  guard_token "vm.map.h" = guard_token "vm_map.h"
  ∧ guard_token "vm-map.h" = "_SYNTHESIZED_VM-MAP_H_".
Proof. split; reflexivity. Qed.

End GuardTokens.

(** ** Dictionaries *)

Section DictFacts.
Import Py.
Context {V : Type}.
Implicit Types (d : dict V) (k : string) (v : V).

Lemma get_set d k v k' :
  get k' (set k v d) = if String.eqb k' k then Some v else get k' d.
Proof.
  induction d as [|[k0 v0] d IH]; simpl.
  - by destruct (String.eqb k' k).
  - destruct (String.eqb k k0) eqn:Hk; simpl.
    + apply String.eqb_eq in Hk as ->. by destruct (String.eqb k' k0).
    + rewrite IH. destruct (String.eqb k' k0) eqn:Hk0; [|done].
      apply String.eqb_eq in Hk0 as ->.
      by rewrite String.eqb_sym, Hk.
Qed.

Lemma get_absent d k : k ∉ keys d → get k d = None.
Proof.
  induction d as [|[k0 v0] d IH]; simpl; [done|].
  intros Hk. apply not_elem_of_cons in Hk as [Hne Hk].
  destruct (String.eqb_spec k k0); [done|]. by apply IH.
Qed.

Lemma elem_of_keys_set d k v k' :
  k' ∈ keys (set k v d) ↔ k' = k ∨ k' ∈ keys d.
Proof.
  unfold keys. induction d as [|[k0 v0] d IH]; simpl.
  - set_solver.
  - destruct (String.eqb_spec k k0) as [->|Hne]; csimpl.
    + set_solver.
    + rewrite !elem_of_cons, IH. naive_solver.
Qed.

Lemma keys_set_nodup d k v : NoDup (keys d) → NoDup (keys (set k v d)).
Proof.
  unfold keys. induction d as [|[k0 v0] d IH]; simpl; intros Hnd.
  - apply NoDup_singleton.
  - apply NoDup_cons in Hnd as [Hk0 Hnd].
    destruct (String.eqb_spec k k0) as [->|Hne]; csimpl.
    + by apply NoDup_cons.
    + apply NoDup_cons. split; [|by apply IH].
      intros Hin. apply (elem_of_keys_set d k v k0) in Hin as [?|?]; auto.
Qed.

End DictFacts.

(** ** The path that is read *)

Section Discovery.
Import Py Merge.
Variable find_stdout : string → string → string.
Variable read_file : string → option string.

Lemma find_similar_files_loop filename names acc system :
  get system
    (foldl (λ similar name,
              let stdout := find_stdout name filename in
              if Str.nonempty stdout then
                set name (Str.split_lines (Str.strip stdout)) similar
              else similar) acc names)
  = if bool_decide (system ∈ names)
       && Str.nonempty (find_stdout system filename)
    then Some (Str.split_lines (Str.strip (find_stdout system filename)))
    else get system acc.
Proof.
  revert acc. induction names as [|name names IH]; intros acc; simpl.
  - done.
  - rewrite IH. destruct (decide (system ∈ names)) as [Hin|Hin].
    + rewrite !bool_decide_eq_true_2 by set_solver. simpl.
      destruct (Str.nonempty (find_stdout system filename)) eqn:Hs; [done|].
      destruct (Str.nonempty (find_stdout name filename)) eqn:Hn; [|done].
      rewrite get_set. destruct (String.eqb_spec system name) as [->|];
        [congruence|done].
    + rewrite (bool_decide_eq_false_2 (system ∈ names)) by done. simpl.
      destruct (decide (system = name)) as [->|Hne].
      * rewrite bool_decide_eq_true_2 by set_solver. simpl.
        destruct (Str.nonempty (find_stdout name filename)); [|done].
        by rewrite get_set, String.eqb_refl.
      * rewrite bool_decide_eq_false_2 by set_solver. simpl.
        destruct (Str.nonempty (find_stdout name filename)); [|done].
        rewrite get_set. by destruct (String.eqb_spec system name).
Qed.

Lemma find_similar_files_nodup filename :
  NoDup (keys (find_similar_files find_stdout filename)).
Proof.
  unfold find_similar_files.
  assert (NoDup (keys ([] : dict (list string)))) as Hacc
    by apply NoDup_nil_2.
  revert Hacc. generalize ([] : dict (list string)).
  induction systems as [|name names IH]; intros acc Hacc; simpl; [done|].
  apply IH. destruct (Str.nonempty _); [|done]. by apply keys_set_nodup.
Qed.

Lemma read_contents_loop file_paths acc system :
  NoDup (keys file_paths) →
  get system
    (foldl (λ contents entry,
              let '(system, paths) := entry in
              match first_path paths with
              | Some path =>
                  match read_file path with
                  | Some text => set system text contents
                  | None => contents
                  end
              | None => contents
              end) acc file_paths)
  = match (get system file_paths ≫= first_path) ≫= read_file with
    | Some text => Some text
    | None => get system acc
    end.
Proof.
  revert acc.
  induction file_paths as [|[name paths] rest IH]; intros acc Hnd;
    [done|].
  unfold keys in Hnd. csimpl in Hnd.
  apply NoDup_cons in Hnd as [Hname Hnd].
  cbn [foldl]. rewrite (IH _ Hnd). cbn [get].
  destruct (String.eqb_spec system name) as [->|Hne].
  - rewrite get_absent by done. simpl.
    destruct (first_path paths) as [path|]; simpl; [|done].
    destruct (read_file path) as [text|]; [|done].
    by rewrite get_set, String.eqb_refl.
  - destruct ((get system rest ≫= first_path) ≫= read_file); [done|].
    destruct (first_path paths) as [path|]; [|done].
    destruct (read_file path) as [text|]; [|done].
    rewrite get_set. by destruct (String.eqb_spec system name).
Qed.

(** C8, as the program has it. For a tree in which [find] reports the
    file, the paths are the lines of the output of [find], in its
    order, and the text of that tree is read from the first of them.
    The first path is the least one when [find] happens to list the
    paths in ascending order; nothing sorts them. *)
Theorem first_listed_path_is_read (filename system : string) :
  system ∈ systems →
  Str.nonempty (find_stdout system filename) = true →
  let paths :=
    Str.split_lines (Str.strip (find_stdout system filename)) in
  get system (find_similar_files find_stdout filename) = Some paths
  ∧ get system
      (read_contents read_file (find_similar_files find_stdout filename))
    = first_path paths ≫= read_file
  ∧ (∀ path, first_path paths = Some path → head paths = Some path)
  ∧ (∀ path other,
       first_path paths = Some path →
       StronglySorted String.le paths → other ∈ paths →
       String.le path other).
Proof.
  intros Hsys Hout paths.
  assert (get system (find_similar_files find_stdout filename)
          = Some paths) as Hget.
  { unfold find_similar_files. rewrite find_similar_files_loop.
    by rewrite bool_decide_eq_true_2, Hout. }
  split; [exact Hget|]. split.
  - unfold read_contents.
    rewrite read_contents_loop by apply find_similar_files_nodup.
    rewrite Hget. simpl. by destruct (first_path paths ≫= read_file).
  - split.
    + intros path. destruct paths as [|p ps]; simpl; [done|].
      destruct (Str.nonempty p); [done|discriminate].
    + intros path other Hfirst Hsorted Hin.
      destruct paths as [|p ps]; [done|]. simpl in Hfirst.
      destruct (Str.nonempty p); [|done]. injection Hfirst as ->.
      apply elem_of_cons in Hin as [->|Hin]; [done|].
      apply StronglySorted_inv in Hsorted as [_ Hall].
      rewrite Forall_forall in Hall. by apply Hall.
Qed.

End Discovery.

Lemma first_listed_path_is_read_witness :
  let paths := ["/src/mach/kernel/port.h"; "/src/mach/include/port.h"] in
  "mach" ∈ Merge.systems
  ∧ Str.nonempty (Scenario.find_port_h "mach" "port.h") = true
  ∧ Py.get "mach" (Merge.find_similar_files Scenario.find_port_h "port.h")
    = Some paths
  ∧ Py.get "mach"
      (Merge.read_contents Scenario.read_port_h
         (Merge.find_similar_files Scenario.find_port_h "port.h"))
    = Merge.first_path paths ≫= Scenario.read_port_h.
Proof.
  intros paths.
  assert ("mach" ∈ Merge.systems) as Hsys
    by (unfold Merge.systems; set_solver).
  assert (Str.nonempty (Scenario.find_port_h "mach" "port.h") = true)
    as Hout by reflexivity.
  pose proof (first_listed_path_is_read Scenario.find_port_h
                Scenario.read_port_h "port.h" "mach" Hsys Hout)
    as (Hget & Hread & _).
  repeat split; assumption.
Defined.

(** C8, as stated, fails: [find] walks [kernel] before [include]; the
    text of the tree is read from the path in [kernel], the first one
    listed, although the path in [include] is the smaller one. *)
Lemma first_listed_path_is_not_least :
  Py.get "mach" (Merge.find_similar_files Scenario.find_port_h "port.h")
  = Some ["/src/mach/kernel/port.h"; "/src/mach/include/port.h"]
  ∧ Merge.read_contents Scenario.read_port_h
      (Merge.find_similar_files Scenario.find_port_h "port.h")
    = [("mach", Scenario.text ["typedef int port_t;"])]
  ∧ Scenario.read_port_h "/src/mach/kernel/port.h"
    = Some (Scenario.text ["typedef int port_t;"])
  ∧ String.ltb "/src/mach/include/port.h" "/src/mach/kernel/port.h" = true.
Proof. repeat split; vm_compute; reflexivity. Qed.

(** ** Comparison of floats *)

Section FloatFacts.

Lemma SFcompare_antisym (x y : F64.float) (c : comparison) :
  SFcompare x y = Some c → SFcompare y x = Some (CompOpp c).
Proof.
  destruct x as [sx|sx| |sx mx ex], y as [sy|sy| |sy my ey]; simpl;
    try discriminate; intros [= <-]; try (by destruct sx, sy);
    try (by destruct sx); try (by destruct sy).
  f_equal. change (Pos.compare_cont Eq my mx) with (Pos.compare my mx).
  change (Pos.compare_cont Eq mx my) with (Pos.compare mx my).
  rewrite (Z.compare_antisym ex ey), (Pos.compare_antisym mx my).
  destruct sx, sy; simpl; try done;
    destruct (Z.compare ex ey); simpl; try done;
    by destruct (Pos.compare mx my).
Qed.

(** [n <= x] excludes [x < n]. *)
Lemma ge_int_not_lt_int (x : F64.float) (n : Z) :
  F64.ge_int x n = true → F64.lt_int x n = false.
Proof.
  unfold F64.ge_int, F64.lt_int, SFleb, SFltb.
  destruct (SFcompare (F64.of_Z n) x) as [c|] eqn:Hc; [|done].
  rewrite (SFcompare_antisym _ _ _ Hc). by destruct c.
Qed.

End FloatFacts.

(** ** The compatibility score *)

Section Score.
Import Ipc Checks.
Implicit Types (itf : interfaces) (A B : gset string).

(** The function on the two sets of exported names. *)
Lemma score_of_exported itf sys1 sys2 :
  calculate_compatibility_score itf sys1 sys2
  = if bool_decide (exported itf sys1 = ∅)
       || bool_decide (exported itf sys2 = ∅)
    then F64.zero
    else percentage (size (exported itf sys1 ∩ exported itf sys2))
                    (size (exported itf sys1 ∪ exported itf sys2)).
Proof.
  unfold calculate_compatibility_score, exported.
  destruct (itf !! sys1) as [i1|], (itf !! sys2) as [i2|]; simpl;
    try done.
  - rewrite (bool_decide_eq_true_2 (∅ = ∅)) by done.
    by rewrite orb_true_r.
Qed.

Lemma score_symmetric itf sys1 sys2 :
  calculate_compatibility_score itf sys1 sys2
  = calculate_compatibility_score itf sys2 sys1.
Proof.
  rewrite !score_of_exported.
  rewrite (orb_comm (bool_decide (exported itf sys1 = ∅))).
  rewrite (comm_L (∩) (exported itf sys1)).
  by rewrite (comm_L (∪) (exported itf sys1)).
Qed.

Lemma percentage_table :
  forallb (λ u, forallb (percentage_checked (S u)) (seq 0 (S (S u))))
          (seq 0 (length ipc_functions)) = true.
Proof. vm_compute. reflexivity. Qed.

Lemma percentage_checked_in_range (u i : nat) :
  1 ≤ u ≤ length ipc_functions → i ≤ u → percentage_checked u i = true.
Proof.
  intros [Hu1 Hu2] Hi. destruct u as [|u]; [lia|].
  pose proof percentage_table as Htab.
  rewrite forallb_forall in Htab.
  specialize (Htab u). rewrite forallb_forall in Htab.
  apply Htab; apply in_seq; lia.
Qed.

Lemma percentage_hundred (u i : nat) :
  1 ≤ u ≤ length ipc_functions → i ≤ u →
  percentage i u = F64.of_Z 100 ↔ i = u.
Proof.
  intros Hu Hi. pose proof (percentage_checked_in_range u i Hu Hi) as Hc.
  unfold percentage_checked in Hc.
  repeat (apply andb_prop in Hc as [Hc _]).
  apply bool_decide_eq_true in Hc.
  rewrite <- (bool_decide_spec (percentage i u = F64.of_Z 100)).
  rewrite Hc. apply bool_decide_spec.
Qed.

Lemma exported_bounded A B :
  A ⊆ list_to_set ipc_functions → B ⊆ list_to_set ipc_functions →
  size (A ∪ B) ≤ length ipc_functions.
Proof.
  intros HA HB.
  transitivity (size (list_to_set ipc_functions : gset string)).
  - apply subseteq_size. set_solver.
  - rewrite size_list_to_set; [done|].
    apply (bool_decide_unpack _). vm_compute. exact I.
Qed.

Lemma union_size_pos A B : A ≠ ∅ → 0 < size (A ∪ B).
Proof.
  intros HA. assert (size (A ∪ B) ≠ 0); [|lia].
  apply size_non_empty_iff. intros Hempty. apply HA.
  apply leibniz_equiv. set_solver.
Qed.

Lemma same_size_same_sets A B : size (A ∩ B) = size (A ∪ B) → A = B.
Proof.
  intros Hsize.
  assert (A ∩ B ≡ A ∪ B) as Heq.
  { apply set_subseteq_size_equiv; [set_solver|lia]. }
  apply set_eq. intros x. set_solver.
Qed.

(** C6. On the sets [A] and [B] of the function names two systems
    export, the score is the float [|A ∩ B| / |A ∪ B| * 100]; it is 0
    when one of the sets is empty; it does not depend on the order of
    the two systems; and it is 100 exactly when the sets are equal and
    not empty.  The last part is checked on the floats for all the
    cardinalities that sets of names from [ipc_functions] can have:
    [extract_function_signatures] records no other name. *)
Theorem compatibility_score_spec itf sys1 sys2 :
  let A := exported itf sys1 in
  let B := exported itf sys2 in
  let score := calculate_compatibility_score itf sys1 sys2 in
  (A ≠ ∅ → B ≠ ∅ →
   score = F64.mul_int (F64.truediv (Z.of_nat (size (A ∩ B)))
                                    (Z.of_nat (size (A ∪ B)))) 100)
  ∧ (A = ∅ ∨ B = ∅ → score = F64.zero)
  ∧ score = calculate_compatibility_score itf sys2 sys1
  ∧ (A ⊆ list_to_set ipc_functions → B ⊆ list_to_set ipc_functions →
     score = F64.of_Z 100 ↔ A = B ∧ A ≠ ∅).
Proof.
  intros A B score. subst score. split; [|split; [|split]].
  - intros HA HB. rewrite score_of_exported. fold A B.
    rewrite !bool_decide_eq_false_2 by done. simpl.
    unfold percentage.
    assert (0 < size (A ∪ B)) as Hpos by (by apply union_size_pos).
    by apply Nat.ltb_lt in Hpos as ->.
  - rewrite score_of_exported. fold A B. intros [->| ->].
    + by rewrite bool_decide_eq_true_2.
    + rewrite (bool_decide_eq_true_2 (∅ = ∅)) by done.
      by rewrite orb_true_r.
  - apply score_symmetric.
  - intros HA HB. rewrite score_of_exported. fold A B.
    pose proof (exported_bounded A B HA HB) as Hbound.
    destruct (decide (A = ∅)) as [->|HAne].
    { rewrite bool_decide_eq_true_2 by done. simpl. split; [done|].
      by intros [_ ?]. }
    destruct (decide (B = ∅)) as [->|HBne].
    { rewrite (bool_decide_eq_true_2 (∅ = ∅)) by done.
      rewrite orb_true_r. split; [done|]. by intros [-> ?]. }
    rewrite !bool_decide_eq_false_2 by done. simpl.
    assert (0 < size (A ∪ B)) as Hpos by (by apply union_size_pos).
    assert (size (A ∩ B) ≤ size (A ∪ B)) as Hle.
    { apply subseteq_size. set_solver. }
    rewrite percentage_hundred by lia. split.
    + intros Hsize. split; [by apply same_size_same_sets|done].
    + intros [-> _]. f_equal. apply leibniz_equiv. set_solver.
Qed.

End Score.

Lemma compatibility_score_spec_witness :
  let itf := Scenario.half_shared in
  let A := Ipc.exported itf "CMU-Mach-MK83" in
  let B := Ipc.exported itf "Lites" in
  let score := Ipc.calculate_compatibility_score itf "CMU-Mach-MK83" "Lites" in
  A ≠ ∅ ∧ B ≠ ∅
  ∧ A ⊆ list_to_set Ipc.ipc_functions ∧ B ⊆ list_to_set Ipc.ipc_functions
  ∧ score = F64.mul_int (F64.truediv (Z.of_nat (size (A ∩ B)))
                                     (Z.of_nat (size (A ∪ B)))) 100
  ∧ (score = F64.of_Z 100 ↔ A = B ∧ A ≠ ∅).
Proof.
  intros itf A B score.
  assert (A ≠ ∅) as HA by (apply (bool_decide_unpack _); vm_compute; exact I).
  assert (B ≠ ∅) as HB by (apply (bool_decide_unpack _); vm_compute; exact I).
  assert (A ⊆ list_to_set Ipc.ipc_functions) as HAs
    by (apply (bool_decide_unpack _); vm_compute; exact I).
  assert (B ⊆ list_to_set Ipc.ipc_functions) as HBs
    by (apply (bool_decide_unpack _); vm_compute; exact I).
  pose proof (compatibility_score_spec itf "CMU-Mach-MK83" "Lites")
    as (Hformula & _ & _ & Hhundred).
  split; [exact HA|]. split; [exact HB|].
  split; [exact HAs|]. split; [exact HBs|].
  split; [exact (Hformula HA HB)|exact (Hhundred HAs HBs)].
Defined.

(** ** The list of conflicts *)

Section Conflicts.
Import Ipc.
Implicit Types (itf : interfaces) (c : conflict).

Lemma report_app itf conflicts sys1 sys2 :
  report itf conflicts sys1 sys2 = conflicts ++ report itf [] sys1 sys2.
Proof.
  unfold report. destruct (F64.lt_int _ 50); [done|].
  by rewrite app_nil_r.
Qed.

Lemma inner_loop itf names conflicts sys1 :
  foldl (λ conflicts sys2,
           if String.ltb sys1 sys2 then report itf conflicts sys1 sys2
           else conflicts) conflicts names
  = conflicts
    ++ (names ≫= λ sys2,
          if String.ltb sys1 sys2 then report itf [] sys1 sys2 else []).
Proof.
  apply (foldl_emit
           (λ conflicts sys2,
              if String.ltb sys1 sys2 then report itf conflicts sys1 sys2
              else conflicts)).
  intros acc sys2. destruct (String.ltb sys1 sys2).
  - apply report_app.
  - by rewrite app_nil_r.
Qed.

Lemma outer_loop itf outer names conflicts :
  foldl (λ conflicts sys1,
           foldl (λ conflicts sys2,
                    if String.ltb sys1 sys2
                    then report itf conflicts sys1 sys2
                    else conflicts) conflicts names) conflicts outer
  = conflicts
    ++ (outer ≫= λ sys1, names ≫= λ sys2,
          if String.ltb sys1 sys2 then report itf [] sys1 sys2 else []).
Proof.
  revert conflicts. induction outer as [|sys1 outer IH]; intros conflicts.
  - by rewrite app_nil_r.
  - cbn [foldl]. rewrite IH, inner_loop. by rewrite <- app_assoc.
Qed.

(** The two loops, as the list of what each ordered pair adds. *)
Lemma conflicts_among_bind names itf :
  conflicts_among names itf
  = names ≫= λ sys1, names ≫= λ sys2,
      if String.ltb sys1 sys2 then report itf [] sys1 sys2 else [].
Proof. unfold conflicts_among. by rewrite outer_loop. Qed.

Lemma elem_of_conflicts_among names itf c :
  c ∈ conflicts_among names itf
  ↔ ∃ sys1 sys2,
      sys1 ∈ names ∧ sys2 ∈ names ∧ String.ltb sys1 sys2 = true
      ∧ F64.lt_int (calculate_compatibility_score itf sys1 sys2) 50 = true
      ∧ c = conflict_of sys1 sys2
              (calculate_compatibility_score itf sys1 sys2).
Proof.
  rewrite conflicts_among_bind. rewrite list_elem_of_bind. split.
  - intros (sys1 & Hc & Hsys1). apply list_elem_of_bind in Hc
      as (sys2 & Hc & Hsys2).
    exists sys1, sys2. destruct (String.ltb sys1 sys2); [|set_solver].
    unfold report in Hc.
    destruct (F64.lt_int _ 50); [|set_solver].
    apply list_elem_of_singleton in Hc. done.
  - intros (sys1 & sys2 & Hsys1 & Hsys2 & Hlt & Hscore & ->).
    exists sys1. split; [|done]. apply list_elem_of_bind.
    exists sys2. split; [|done]. rewrite Hlt. unfold report.
    rewrite Hscore. set_solver.
Qed.

(** C7. For two systems of the run, taken in ascending order of their
    names: the list of conflicts holds an entry for the pair if and only
    if its score is below 50; the entry is then the one of
    [conflict_of], with severity High when the score is below 25 and
    Medium when it is at least 25; a score of exactly 50 gives no entry;
    and no entry names the pair in the other order. *)
Theorem conflict_reported_iff_below_50 itf sys1 sys2 :
  sys1 ∈ systems → sys2 ∈ systems → String.ltb sys1 sys2 = true →
  let score := calculate_compatibility_score itf sys1 sys2 in
  ((∃ c, c ∈ plan_conflicts itf ∧ conflict_systems c = [sys1; sys2])
   ↔ F64.lt_int score 50 = true)
  ∧ (∀ c, c ∈ plan_conflicts itf → conflict_systems c = [sys1; sys2] →
          c = conflict_of sys1 sys2 score
          ∧ (F64.lt_int score 25 = true → conflict_severity c = High)
          ∧ (F64.ge_int score 25 = true → conflict_severity c = Medium))
  ∧ (score = F64.of_Z 50 →
     ¬ ∃ c, c ∈ plan_conflicts itf ∧ conflict_systems c = [sys1; sys2])
  ∧ (∀ c, c ∈ plan_conflicts itf → conflict_systems c ≠ [sys2; sys1]).
Proof.
  intros Hsys1 Hsys2 Hlt score. unfold plan_conflicts.
  assert (∀ c, c ∈ conflicts_among systems itf →
               conflict_systems c = [sys1; sys2] →
               F64.lt_int score 50 = true ∧ c = conflict_of sys1 sys2 score)
    as Hentry.
  { intros c Hc Hpair. apply elem_of_conflicts_among in Hc
      as (s1 & s2 & _ & _ & _ & Hscore & ->).
    simpl in Hpair. injection Hpair as -> ->. done. }
  split; [|split; [|split]].
  - split.
    + intros (c & Hc & Hpair). by destruct (Hentry c Hc Hpair).
    + intros Hscore. exists (conflict_of sys1 sys2 score). split; [|done].
      apply elem_of_conflicts_among. by exists sys1, sys2.
  - intros c Hc Hpair. destruct (Hentry c Hc Hpair) as [_ ->].
    split; [done|]. unfold conflict_of. simpl. split.
    + by intros ->.
    + intros Hge. by rewrite (ge_int_not_lt_int _ _ Hge).
  - intros Hfifty (c & Hc & Hpair).
    destruct (Hentry c Hc Hpair) as [Hscore _].
    rewrite Hfifty in Hscore. vm_compute in Hscore. discriminate Hscore.
  - intros c Hc Hpair. apply elem_of_conflicts_among in Hc
      as (s1 & s2 & _ & _ & Hlt' & _ & ->).
    simpl in Hpair. injection Hpair as -> ->.
    unfold String.ltb in Hlt, Hlt'.
    rewrite String.compare_antisym in Hlt'.
    destruct (String.compare sys1 sys2); simpl in *; discriminate.
Qed.

End Conflicts.

Lemma conflict_reported_iff_below_50_witness :
  let itf := Scenario.half_shared in
  let score :=
    Ipc.calculate_compatibility_score itf "GNU-OSFMach" "Lites" in
  "GNU-OSFMach" ∈ Ipc.systems ∧ "Lites" ∈ Ipc.systems
  ∧ String.ltb "GNU-OSFMach" "Lites" = true
  ∧ ((∃ c, c ∈ Ipc.plan_conflicts itf
           ∧ Ipc.conflict_systems c = ["GNU-OSFMach"; "Lites"])
     ↔ F64.lt_int score 50 = true).
Proof.
  intros itf score.
  assert ("GNU-OSFMach" ∈ Ipc.systems) as H1
    by (unfold Ipc.systems; set_solver).
  assert ("Lites" ∈ Ipc.systems) as H2 by (unfold Ipc.systems; set_solver).
  assert (String.ltb "GNU-OSFMach" "Lites" = true) as H3 by reflexivity.
  split; [exact H1|]. split; [exact H2|]. split; [exact H3|].
  exact (proj1 (conflict_reported_iff_below_50 itf _ _ H1 H2 H3)).
Defined.

(** ** The scenarios of the score *)

Section ScoreScenarios.
Import Ipc.

(** Two of four names in common: the score is 50 and the pair is not
    reported.  One name against none: the score is 0 and the pair is
    reported with severity High. *)
Example plan_of_half_shared :
  calculate_compatibility_score Scenario.half_shared
    "CMU-Mach-MK83" "Lites" = F64.of_Z 50
  ∧ calculate_compatibility_score Scenario.half_shared
      "GNU-OSFMach" "Mach4-i386" = F64.zero
  ∧ plan_conflicts Scenario.half_shared
    = [Conflict ["CMU-Mach-MK83"; "Mach4-i386"] "0.0%" High;
       Conflict ["CMU-Mach-MK83"; "GNU-OSFMach"] "33.3%" Medium;
       Conflict ["Lites"; "Mach4-i386"] "0.0%" High;
       Conflict ["GNU-OSFMach"; "Lites"] "0.0%" High;
       Conflict ["GNU-OSFMach"; "Mach4-i386"] "0.0%" High].
Proof. repeat split; vm_compute; reflexivity. Qed.

(** Any two different names are ordered one way or the other, so the
    pairs in ascending order cover all pairs. *)
Lemma names_ordered (a b : string) :
  a ≠ b → String.ltb a b = true ∨ String.ltb b a = true.
Proof.
  intros Hne. unfold String.ltb.
  destruct (String.compare a b) eqn:Hc.
  - by apply String.compare_eq_iff in Hc.
  - by left.
  - right. rewrite String.compare_antisym in Hc.
    by destruct (String.compare b a).
Qed.

End ScoreScenarios.

(** ** The names that extraction records *)

Section Extraction.
Import Ipc Checks.
Variable grep_stdout : string → string → string.

Lemma signatures_loop system (names : list string) (acc : gmap string string) :
  dom (foldl (λ signatures func,
                let stdout := grep_stdout system func in
                if Str.nonempty stdout then
                  match clean_signature stdout with
                  | Some sig => <[func := sig]> signatures
                  | None => signatures
                  end
                else signatures) acc names)
  ⊆ dom acc ∪ list_to_set names.
Proof.
  revert acc. induction names as [|func names IH]; intros acc; cbn [foldl].
  - set_solver.
  - etransitivity; [apply IH|].
    destruct (Str.nonempty _); [|set_solver].
    destruct (clean_signature _); [|set_solver].
    rewrite dom_insert. set_solver.
Qed.

(** [extract_function_signatures] records signatures under names of
    [ipc_functions] only. *)
Lemma signatures_of_bounded system :
  dom (signatures_of grep_stdout system) ⊆ list_to_set ipc_functions.
Proof.
  pose proof (signatures_loop system ipc_functions ∅) as Hloop.
  rewrite dom_empty_L, (left_id_L ∅ (∪)) in Hloop. exact Hloop.
Qed.

Lemma bounded_empty : bounded ∅.
Proof.
  intros sys. unfold exported. rewrite lookup_empty. apply empty_subseteq.
Qed.

Lemma extract_function_signatures_bounded system itf :
  bounded itf → bounded (extract_function_signatures grep_stdout system itf).
Proof.
  intros Hb sys. unfold exported, extract_function_signatures.
  destruct (decide (system = sys)) as [->|Hne].
  - rewrite lookup_insert_eq.
    change (dom (signatures_of grep_stdout sys)
            ⊆ list_to_set ipc_functions).
    apply signatures_of_bounded.
  - rewrite lookup_insert_ne by done. apply Hb.
Qed.

End Extraction.

(** ** The matcher does not depend on its iteration bounds *)

Section RegexFacts.
Import Re.

Lemma length_append (s t : string) :
  String.length (s +:+ t) = String.length s + String.length t.
Proof.
  induction s as [|a s IH]; [done|]. rewrite append_cons. simpl.
  by rewrite IH.
Qed.

Lemma reach_refl c : reach c c.
Proof. exists "". split; [done|]. simpl. lia. Qed.

Lemma reach_trans c1 c2 c3 : reach c1 c2 → reach c2 c3 → reach c1 c3.
Proof.
  intros (s1 & Hr1 & Hp1) (s2 & Hr2 & Hp2). exists (s1 +:+ s2). split.
  - by rewrite Hr1, Hr2, append_assoc.
  - rewrite length_append. lia.
Qed.

Lemma reach_step c a t :
  rest c = String a t → reach c (Cursor (Some a) (S (pos c)) t).
Proof.
  intros Hrest. exists (String a ""). split; [done|]. simpl. lia.
Qed.

Lemma reach_length c c' :
  reach c c' →
  String.length (rest c) = (pos c' - pos c) + String.length (rest c')
  ∧ pos c ≤ pos c'.
Proof.
  intros (s & Hr & Hp). rewrite Hr, length_append. lia.
Qed.

Lemma reach_eat_lit p c c' : eat_lit p c = Some c' → reach c c'.
Proof.
  revert c. induction p as [|a p IH]; intros c; simpl.
  - intros [= ->]. apply reach_refl.
  - destruct (rest c) as [|b t] eqn:Hrest; [done|].
    destruct (Ascii.eqb a b); [|done]. intros Heat.
    eapply reach_trans; [by apply reach_step|]. by apply IH.
Qed.

Context {R : Type}.
Implicit Types (k : cursor → option string → option R).

Lemma rmatch_star g r c cap k :
  rmatch (Star g r) c cap k
  = star_loop g (rmatch r) k (String.length (rest c)) c cap.
Proof. reflexivity. Qed.

Lemma star_loop_S g
    (body : cursor → option string →
            (cursor → option string → option R) → option R) k n c cap :
  star_loop g body k (S n) c cap
  = let again c' cap' :=
      if Nat.ltb (pos c) (pos c') then star_loop g body k n c' cap'
      else None in
    if g then
      match body c cap again with
      | Some x => Some x
      | None => k c cap
      end
    else
      match k c cap with
      | Some x => Some x
      | None => body c cap again
      end.
Proof. reflexivity. Qed.

(** The result depends on the continuation only at the positions at or
    after the start. *)
Lemma rmatch_ext r c cap k1 k2 :
  (∀ c' cap', reach c c' → k1 c' cap' = k2 c' cap') →
  rmatch r c cap k1 = rmatch r c cap k2.
Proof.
  revert c cap k1 k2.
  induction r as [s|p| | |r1 IH1 r2 IH2|r IH|g r IH|r IH];
    intros c cap k1 k2 Hk.
  - simpl. destruct (eat_lit s c) as [c'|] eqn:Heat; [|done].
    apply Hk. by eapply reach_eat_lit.
  - simpl. destruct (rest c) as [|a t] eqn:Hrest; [done|].
    destruct (p a); [|done]. apply Hk. by apply reach_step.
  - simpl. destruct (at_bol c); [|done]. apply Hk, reach_refl.
  - simpl. destruct (at_eol c); [|done]. apply Hk, reach_refl.
  - simpl. apply IH1. intros c' cap' Hc'. apply IH2.
    intros c'' cap'' Hc''. apply Hk. by eapply reach_trans.
  - simpl. rewrite (IH c cap k1 k2 Hk).
    destruct (rmatch r c cap k2); [done|]. apply Hk, reach_refl.
  - rewrite !rmatch_star.
    assert (∀ n c1 cap, reach c c1 →
              star_loop g (rmatch r) k1 n c1 cap
              = star_loop g (rmatch r) k2 n c1 cap) as Hloop;
      [|apply Hloop, reach_refl].
    clear cap. intros n.
    induction n as [|n IHn]; intros c1 cap Hc1; simpl.
    + by apply Hk.
    + assert (rmatch r c1 cap
                (λ c' cap', if Nat.ltb (pos c1) (pos c')
                            then star_loop g (rmatch r) k1 n c' cap'
                            else None)
              = rmatch r c1 cap
                  (λ c' cap', if Nat.ltb (pos c1) (pos c')
                              then star_loop g (rmatch r) k2 n c' cap'
                              else None)) as ->.
      { apply IH. intros c' cap' Hc'.
        destruct (Nat.ltb (pos c1) (pos c')); [|done].
        apply IHn. by eapply reach_trans. }
      by rewrite (Hk c1 cap Hc1).
  - simpl. apply IH. intros c' cap' Hc'. by apply Hk.
Qed.

Lemma star_loop_none g r n c cap :
  (∀ c cap, rmatch r c cap (λ _ _, @None R) = None) →
  star_loop g (rmatch r) (λ _ _, @None R) n c cap = None.
Proof.
  intros Hbody. revert c cap. induction n as [|n IHn]; intros c cap; simpl.
  - done.
  - assert (rmatch r c cap
              (λ c' cap', if Nat.ltb (pos c) (pos c')
                          then star_loop g (rmatch r) (λ _ _, None) n c' cap'
                          else None) = None) as ->.
    { etrans; [|apply (Hbody c cap)]. apply rmatch_ext. intros c' cap' _.
      destruct (Nat.ltb (pos c) (pos c')); [apply IHn|done]. }
    by destruct g.
Qed.

(** A continuation that always refuses makes the match fail. *)
Lemma rmatch_none r c cap : rmatch r c cap (λ _ _, @None R) = None.
Proof.
  revert c cap.
  induction r as [s|p| | |r1 IH1 r2 IH2|r IH|g r IH|r IH]; intros c cap.
  - simpl. by destruct (eat_lit s c).
  - simpl. destruct (rest c) as [|a t]; [done|]. by destruct (p a).
  - simpl. by destruct (at_bol c).
  - simpl. by destruct (at_eol c).
  - simpl. etrans; [|apply (IH1 c cap)]. apply rmatch_ext.
    intros c' cap' _. apply IH2.
  - simpl. by rewrite IH.
  - rewrite rmatch_star. by apply star_loop_none.
  - simpl. apply IH.
Qed.

(** At the end of the subject no round of a repetition can advance. *)
Lemma star_loop_at_end g r k n c cap :
  rest c = "" → star_loop g (rmatch r) k n c cap = k c cap.
Proof.
  intros Hend. destruct n as [|n]; simpl; [done|].
  assert (rmatch r c cap
            (λ c' cap', if Nat.ltb (pos c) (pos c')
                        then star_loop g (rmatch r) k n c' cap'
                        else None) = None) as ->.
  { etrans; [|apply (rmatch_none r c cap)]. apply rmatch_ext.
    intros c' cap' Hc'. apply reach_length in Hc' as [Hlen _].
    rewrite Hend in Hlen. simpl in Hlen.
    assert (Nat.ltb (pos c) (pos c') = false) as ->; [|done].
    apply Nat.ltb_ge. lia. }
  destruct g; [done|]. by destruct (k c cap).
Qed.

(** Any bound that is at least the number of remaining characters gives
    the same result. *)
Lemma star_loop_fuel g r k n m c cap :
  String.length (rest c) ≤ n → String.length (rest c) ≤ m →
  star_loop g (rmatch r) k n c cap = star_loop g (rmatch r) k m c cap.
Proof.
  revert m c cap. induction n as [|n IHn]; intros m c cap Hn Hm.
  - assert (rest c = "") as Hend by (destruct (rest c); [done|simpl in Hn; lia]).
    by rewrite !star_loop_at_end.
  - destruct m as [|m].
    { assert (rest c = "") as Hend
        by (destruct (rest c); [done|simpl in Hm; lia]).
      by rewrite !star_loop_at_end. }
    simpl.
    assert (rmatch r c cap
              (λ c' cap', if Nat.ltb (pos c) (pos c')
                          then star_loop g (rmatch r) k n c' cap'
                          else None)
            = rmatch r c cap
                (λ c' cap', if Nat.ltb (pos c) (pos c')
                            then star_loop g (rmatch r) k m c' cap'
                            else None)) as ->; [|done].
    apply rmatch_ext. intros c' cap' Hc'.
    destruct (Nat.ltb (pos c) (pos c')) eqn:Hlt; [|done].
    apply Nat.ltb_lt in Hlt. apply reach_length in Hc' as [Hlen _].
    apply IHn; lia.
Qed.

(** The equation of a repetition: one more round of the body followed by
    the repetition itself, or the continuation; the greedy one tries the
    round first, the lazy one the continuation. *)
Theorem star_unfold g r c cap k :
  rmatch (Star g r) c cap k
  = let again c' cap' :=
      if Nat.ltb (pos c) (pos c') then rmatch (Star g r) c' cap' k
      else None in
    if g then
      match rmatch r c cap again with
      | Some x => Some x
      | None => k c cap
      end
    else
      match k c cap with
      | Some x => Some x
      | None => rmatch r c cap again
      end.
Proof.
  cbv zeta.
  assert (∀ n, String.length (rest c) ≤ S n →
            rmatch r c cap
              (λ c' cap', if Nat.ltb (pos c) (pos c')
                          then star_loop g (rmatch r) k n c' cap'
                          else None)
            = rmatch r c cap
                (λ c' cap', if Nat.ltb (pos c) (pos c')
                            then rmatch (Star g r) c' cap' k
                            else None)) as Hagain.
  { intros n Hn. apply rmatch_ext. intros c' cap' Hc'.
    destruct (Nat.ltb (pos c) (pos c')) eqn:Hlt; [|done].
    apply Nat.ltb_lt in Hlt. apply reach_length in Hc' as [Hlen _].
    rewrite rmatch_star. apply star_loop_fuel; lia. }
  rewrite rmatch_star at 1.
  rewrite (star_loop_fuel g r k _ (S (String.length (rest c)))) by lia.
  rewrite star_loop_S. cbv zeta. rewrite Hagain by lia. reflexivity.
Qed.

(** What a match returns, the continuation returned at a position at or
    after the start. *)
Lemma rmatch_result r c cap k x :
  rmatch r c cap k = Some x →
  ∃ c' cap', reach c c' ∧ k c' cap' = Some x.
Proof.
  revert c cap k x.
  induction r as [s|p| | |r1 IH1 r2 IH2|r IH|g r IH|r IH]; intros c cap k x.
  - simpl. destruct (eat_lit s c) as [c'|] eqn:Heat; [|done].
    intros Hk. exists c', cap. split; [by eapply reach_eat_lit|done].
  - simpl. destruct (rest c) as [|a t] eqn:Hrest; [done|].
    destruct (p a); [|done]. intros Hk.
    eexists _, cap. split; [by apply reach_step|done].
  - simpl. destruct (at_bol c); [|done]. intros Hk.
    exists c, cap. split; [apply reach_refl|done].
  - simpl. destruct (at_eol c); [|done]. intros Hk.
    exists c, cap. split; [apply reach_refl|done].
  - simpl. intros Hm. apply IH1 in Hm as (c1 & cap1 & Hc1 & Hm).
    apply IH2 in Hm as (c2 & cap2 & Hc2 & Hk).
    exists c2, cap2. split; [by eapply reach_trans|done].
  - simpl. destruct (rmatch r c cap k) eqn:Hm.
    + intros [= ->]. by apply IH in Hm.
    + intros Hk. exists c, cap. split; [apply reach_refl|done].
  - rewrite rmatch_star. generalize (String.length (rest c)). intros n.
    revert c cap x. induction n as [|n IHn]; intros c cap x.
    + simpl. intros Hk. exists c, cap. split; [apply reach_refl|done].
    + rewrite star_loop_S. cbv zeta.
      assert (∀ y,
                rmatch r c cap
                  (λ c' cap', if Nat.ltb (pos c) (pos c')
                              then star_loop g (rmatch r) k n c' cap'
                              else None) = Some y →
                ∃ c' cap', reach c c' ∧ k c' cap' = Some y) as Hround.
      { intros y Hm. apply IH in Hm as (c1 & cap1 & Hc1 & Hm).
        destruct (Nat.ltb (pos c) (pos c1)); [|done].
        apply IHn in Hm as (c2 & cap2 & Hc2 & Hk).
        exists c2, cap2. split; [by eapply reach_trans|done]. }
      destruct g.
      * destruct (rmatch r c cap _) eqn:Hm.
        -- intros [= ->]. by apply Hround.
        -- intros Hk. exists c, cap. split; [apply reach_refl|done].
      * destruct (k c cap) eqn:Hk.
        -- intros [= ->]. exists c, cap. split; [apply reach_refl|done].
        -- apply Hround.
  - simpl. intros Hm. apply IH in Hm as (c1 & cap1 & Hc1 & Hk).
    by eexists c1, _.
Qed.

End RegexFacts.

Section ScanFacts.
Import Re.

(** A match ends at or after the position where it starts. *)
Lemma match_at_reach r c c' cap :
  match_at r c = Some (c', cap) → reach c c'.
Proof.
  unfold match_at. intros Hm.
  apply rmatch_result in Hm as (c1 & cap1 & Hc1 & [= -> ->]). done.
Qed.

Lemma step_length c c1 :
  step c = Some c1 → String.length (rest c) = S (String.length (rest c1)).
Proof.
  unfold step. destruct (rest c) as [|a t]; [done|]. by intros [= <-].
Qed.

(** The scan of [findall] gives the same list for every bound above the
    number of remaining characters: the bound only makes the definition
    structural. *)
Lemma findall_at_fuel r n m c :
  String.length (rest c) < n → String.length (rest c) < m →
  findall_at n r c = findall_at m r c.
Proof.
  revert m c. induction n as [|n IHn]; intros m c Hn Hm; [lia|].
  destruct m as [|m]; [lia|]. simpl.
  assert (match step c with
          | Some c1 => findall_at n r c1
          | None => []
          end
          = match step c with
            | Some c1 => findall_at m r c1
            | None => []
            end) as Hstep.
  { destruct (step c) as [c1|] eqn:Hs; [|done].
    apply step_length in Hs. apply IHn; lia. }
  destruct (match_at r c) as [[c' cap]|] eqn:Hmatch; [|done].
  f_equal. destruct (Nat.ltb (pos c) (pos c')) eqn:Hlt; [|done].
  apply Nat.ltb_lt in Hlt.
  apply match_at_reach, reach_length in Hmatch as [Hlen _].
  apply IHn; lia.
Qed.

Theorem findall_any_bound r s n :
  String.length s < n → findall r s = findall_at n r (start s).
Proof.
  intros Hn. unfold findall. apply findall_at_fuel; simpl; lia.
Qed.

Lemma sub_at_fuel r template n m c :
  String.length (rest c) < n → String.length (rest c) < m →
  sub_at n r template c = sub_at m r template c.
Proof.
  revert m c. induction n as [|n IHn]; intros m c Hn Hm; [lia|].
  destruct m as [|m]; [lia|]. simpl.
  assert (match rest c with
          | String a t =>
              String a (sub_at n r template (Cursor (Some a) (S (pos c)) t))
          | EmptyString => EmptyString
          end
          = match rest c with
            | String a t =>
                String a (sub_at m r template (Cursor (Some a) (S (pos c)) t))
            | EmptyString => EmptyString
            end) as Hkeep.
  { destruct (rest c) as [|a t] eqn:Hrest; [done|]. f_equal.
    simpl in Hn, Hm. apply IHn; simpl; lia. }
  destruct (match_at r c) as [[c' cap]|] eqn:Hmatch; [|done].
  destruct (Nat.ltb (pos c) (pos c')) eqn:Hlt; [|by rewrite Hkeep].
  apply Nat.ltb_lt in Hlt.
  apply match_at_reach, reach_length in Hmatch as [Hlen _].
  f_equal. apply IHn; lia.
Qed.

Theorem sub_any_bound r template s n :
  String.length s < n → sub r template s = sub_at n r template (start s).
Proof.
  intros Hn. unfold sub. apply sub_at_fuel; simpl; lia.
Qed.

End ScanFacts.

(** ** The matcher against what a pattern can match *)

Section MatcherSemantics.
Import Re Sem.

Lemma cursor_eta (c : cursor) : Cursor (prev c) (pos c) (rest c) = c.
Proof. by destruct c. Qed.

Lemma eat_lit_app (s1 s2 : string) (c : cursor) :
  eat_lit (s1 +:+ s2) c = eat_lit s1 c ≫= eat_lit s2.
Proof.
  revert c. induction s1 as [|a s1 IH]; intros c; [done|].
  rewrite append_cons. simpl. destruct (rest c) as [|b t]; [done|].
  destruct (Ascii.eqb a b); [apply IH|done].
Qed.

Lemma eat_lit_rest (s : string) (c c' : cursor) :
  eat_lit s c = Some c' →
  rest c = s +:+ rest c' ∧ pos c' = pos c + String.length s.
Proof.
  revert c. induction s as [|a s IH]; intros c; simpl.
  - intros [= ->]. split; [done|lia].
  - destruct (rest c) as [|b t] eqn:Hrest; [done|].
    destruct (Ascii.eqb_spec a b) as [->|]; [|done]. intros Heat.
    apply IH in Heat as [Hr Hp]. simpl in Hr, Hp. split.
    + by rewrite append_cons, <- Hr.
    + lia.
Qed.

Lemma substring_prefix (s t : string) :
  substring 0 (String.length s) (s +:+ t) = s.
Proof.
  induction s as [|a s IH].
  - simpl. by destruct t.
  - rewrite append_cons. simpl. by rewrite IH.
Qed.

(** The text between two positions is the text that was moved over. *)
Lemma eat_lit_substring (s : string) (c c' : cursor) :
  eat_lit s c = Some c' → substring 0 (pos c' - pos c) (rest c) = s.
Proof.
  intros Heat. apply eat_lit_rest in Heat as [-> ->].
  replace (pos c + String.length s - pos c) with (String.length s) by lia.
  apply substring_prefix.
Qed.

Lemma later_refl c : later c c.
Proof. by exists "". Qed.

Lemma later_trans c1 c2 c3 : later c1 c2 → later c2 c3 → later c1 c3.
Proof.
  intros [s1 H1] [s2 H2]. exists (s1 +:+ s2).
  rewrite eat_lit_app, H1. exact H2.
Qed.

Lemma later_step c c1 : step c = Some c1 → later c c1.
Proof.
  unfold step. destruct (rest c) as [|a t] eqn:Hrest; [done|].
  intros [= <-]. exists (String a ""). simpl.
  by rewrite Hrest, Ascii.eqb_refl.
Qed.

Lemma run_later r c cap c' cap' : run r c cap c' cap' → later c c'.
Proof.
  induction 1 as [s c cap c' Heat|p c cap a t Hrest Hp| | |
                  r1 r2 c cap c1 cap1 c2 cap2 _ IH1 _ IH2|
                  r c cap c' cap' _ IH| | |
                  g r c cap c1 cap1 c2 cap2 _ IH1 _ _ IH2|
                  r c cap c' cap' _ IH];
    try apply later_refl; try done.
  - by exists s.
  - apply later_step. unfold step. by rewrite Hrest.
  - by eapply later_trans.
  - by eapply later_trans.
Qed.

(** A pattern without a group leaves group 1 as it was. *)
Lemma run_keeps_capture r c cap c' cap' :
  run r c cap c' cap' → has_group r = false → cap' = cap.
Proof.
  induction 1 as [| | | |r1 r2 c cap c1 cap1 c2 cap2 _ IH1 _ IH2|
                  r c cap c' cap' _ IH| | |
                  g r c cap c1 cap1 c2 cap2 _ IH1 _ _ IH2|]; simpl;
    intros Hg; try done.
  - apply orb_false_elim in Hg as [Hg1 Hg2].
    by rewrite (IH2 Hg2), (IH1 Hg1).
  - by apply IH.
  - by rewrite (IH2 Hg), (IH1 Hg).
Qed.

(** A repetition matches the same texts greedy or lazy. *)
Lemma run_star_flag g g' r c cap c' cap' :
  run (Star g r) c cap c' cap' → run (Star g' r) c cap c' cap'.
Proof.
  intros Hrun. remember (Star g r) as r0 eqn:Hr0.
  induction Hrun as [| | | | | | |g0 r1 c cap|
                     g0 r1 c cap c1 cap1 c2 cap2 H1 _ Hlt _ IH2|];
    try discriminate Hr0.
  - injection Hr0 as -> ->. apply run_star_stop.
  - injection Hr0 as -> ->. eapply run_star_more; [exact H1|exact Hlt|].
    by apply IH2.
Qed.

(** A repetition of a class also matches as a repetition of a wider
    class. *)
Lemma run_star_wider g (p q : ascii → bool) c cap c' cap' :
  (∀ a, p a = true → q a = true) →
  run (Star g (Cls p)) c cap c' cap' → run (Star g (Cls q)) c cap c' cap'.
Proof.
  intros Hpq Hrun. remember (Star g (Cls p)) as r0 eqn:Hr0.
  induction Hrun as [| | | | | | |g0 r1 c cap|
                     g0 r1 c cap c1 cap1 c2 cap2 H1 _ Hlt _ IH2|];
    try discriminate Hr0.
  - injection Hr0 as -> ->. apply run_star_stop.
  - injection Hr0 as -> ->.
    eapply run_star_more; [|exact Hlt|by apply IH2].
    inversion H1; subst. apply run_cls; [done|by apply Hpq].
Qed.

Context {R : Type}.
Implicit Types (k : cursor → option string → option R).

(** Soundness: what the matcher returns, the continuation returned at the
    end of something the pattern can match. *)
Lemma rmatch_sound r c cap k x :
  rmatch r c cap k = Some x →
  ∃ c' cap', run r c cap c' cap' ∧ k c' cap' = Some x.
Proof.
  revert c cap k x.
  induction r as [s|p| | |r1 IH1 r2 IH2|r IH|g r IH|r IH]; intros c cap k x.
  - simpl. destruct (eat_lit s c) as [c'|] eqn:Heat; [|done].
    intros Hk. exists c', cap. split; [by apply run_lit|done].
  - simpl. destruct (rest c) as [|a t] eqn:Hrest; [done|].
    destruct (p a) eqn:Hp; [|done]. intros Hk.
    eexists _, cap. split; [by apply run_cls|done].
  - simpl. destruct (at_bol c) eqn:Hb; [|done]. intros Hk.
    exists c, cap. split; [by apply run_bol|done].
  - simpl. destruct (at_eol c) eqn:He; [|done]. intros Hk.
    exists c, cap. split; [by apply run_eol|done].
  - simpl. intros Hm. apply IH1 in Hm as (c1 & cap1 & Hr1 & Hm).
    apply IH2 in Hm as (c2 & cap2 & Hr2 & Hk).
    exists c2, cap2. split; [by eapply run_cat|done].
  - simpl. destruct (rmatch r c cap k) eqn:Hm.
    + intros [= ->]. apply IH in Hm as (c' & cap' & Hr & Hk).
      exists c', cap'. split; [by apply run_opt_some|done].
    + intros Hk. exists c, cap. split; [apply run_opt_none|done].
  - rewrite rmatch_star. generalize (String.length (rest c)). intros n.
    revert c cap x. induction n as [|n IHn]; intros c cap x.
    + simpl. intros Hk. exists c, cap. split; [apply run_star_stop|done].
    + rewrite star_loop_S. cbv zeta.
      assert (∀ y,
                rmatch r c cap
                  (λ c' cap', if Nat.ltb (pos c) (pos c')
                              then star_loop g (rmatch r) k n c' cap'
                              else None) = Some y →
                ∃ c' cap', run (Star g r) c cap c' cap'
                           ∧ k c' cap' = Some y) as Hround.
      { intros y Hm. apply IH in Hm as (c1 & cap1 & Hr1 & Hm).
        destruct (Nat.ltb (pos c) (pos c1)) eqn:Hlt; [|done].
        apply Nat.ltb_lt in Hlt.
        apply IHn in Hm as (c2 & cap2 & Hr2 & Hk).
        exists c2, cap2. split; [by eapply run_star_more|done]. }
      destruct g.
      * destruct (rmatch r c cap _) eqn:Hm.
        -- intros [= ->]. by apply Hround.
        -- intros Hk. exists c, cap. split; [apply run_star_stop|done].
      * destruct (k c cap) eqn:Hk.
        -- intros [= ->]. exists c, cap.
           split; [apply run_star_stop|done].
        -- apply Hround.
  - simpl. intros Hm. apply IH in Hm as (c1 & cap1 & Hr1 & Hk).
    eexists c1, _. split; [by eapply run_grp|done].
Qed.

(** Completeness: when the pattern can match up to a position where the
    continuation accepts, the matcher returns something. *)
Lemma rmatch_complete r c cap c' cap' k :
  run r c cap c' cap' → is_Some (k c' cap') → is_Some (rmatch r c cap k).
Proof.
  intros Hrun. revert k.
  induction Hrun as [s c cap c' Heat|p c cap a t Hrest Hp|c cap Hb|c cap He|
                     r1 r2 c cap c1 cap1 c2 cap2 _ IH1 _ IH2|
                     r c cap c' cap' _ IH|r c cap|g r c cap|
                     g r c cap c1 cap1 c2 cap2 _ IH1 Hlt _ IH2|
                     r c cap c' cap' _ IH]; intros k Hk.
  - simpl. by rewrite Heat.
  - simpl. by rewrite Hrest, Hp.
  - simpl. by rewrite Hb.
  - simpl. by rewrite He.
  - simpl. apply IH1. by apply IH2.
  - simpl. destruct (IH k Hk) as [x ->]. by eexists.
  - simpl. destruct (rmatch r c cap k); [by eexists|done].
  - rewrite star_unfold. cbv zeta. destruct g.
    + destruct (rmatch r c cap _); [by eexists|done].
    + destruct Hk as [x ->]. by eexists.
  - rewrite star_unfold. cbv zeta.
    assert (is_Some
              (rmatch r c cap
                 (λ c' cap', if Nat.ltb (pos c) (pos c')
                             then rmatch (Star g r) c' cap' k
                             else None))) as [y Hy].
    { apply IH1. apply Nat.ltb_lt in Hlt. rewrite Hlt. by apply IH2. }
    rewrite Hy. destruct g; [by eexists|].
    destruct (k c cap); by eexists.
  - simpl. by apply IH.
Qed.

End MatcherSemantics.

Section ScanSemantics.
Import Re Sem.

Lemma match_at_sound r c c' cap :
  match_at r c = Some (c', cap) → run r c None c' cap.
Proof.
  unfold match_at. intros Hm.
  apply rmatch_sound in Hm as (c1 & cap1 & Hrun & [= -> ->]). done.
Qed.

Lemma match_at_complete r c c' cap :
  run r c None c' cap → is_Some (match_at r c).
Proof.
  intros Hrun. unfold match_at.
  eapply rmatch_complete; [exact Hrun|]. by eexists.
Qed.

(** [search] finds something as soon as the pattern matches at some
    position of the subject. *)
Lemma search_at_finds r c0 c :
  later c0 c → is_Some (match_at r c) →
  is_Some (search_at r (prev c0) (pos c0) (rest c0)).
Proof.
  intros [consumed Heat]. revert c0 Heat.
  induction consumed as [|a consumed IH]; intros c0 Heat Hm.
  - simpl in Heat. injection Heat as ->.
    destruct c as [pv p s]. simpl.
    destruct s; simpl; destruct Hm as [m ->]; by eexists.
  - simpl in Heat. destruct (rest c0) as [|b t] eqn:Hrest; [done|].
    destruct (Ascii.eqb a b); [|done].
    specialize (IH _ Heat Hm). simpl in IH. simpl.
    destruct (match_at r (Cursor (prev c0) (pos c0) (String b t)));
      [by eexists|exact IH].
Qed.

(** Every element of the result of [findall] is group 1 of a match at
    some position of the subject. *)
Lemma findall_at_elem r n c name :
  name ∈ findall_at n r c →
  ∃ c1 c2 cap,
    later c c1 ∧ match_at r c1 = Some (c2, cap)
    ∧ name = default EmptyString cap.
Proof.
  revert c. induction n as [|n IH]; intros c; simpl.
  - by intros ?%elem_of_nil.
  - assert (∀ c1', step c = Some c1' →
              name ∈ findall_at n r c1' →
              ∃ c1 c2 cap, later c c1 ∧ match_at r c1 = Some (c2, cap)
                           ∧ name = default EmptyString cap) as Hstep.
    { intros c1' Hs Hin. apply IH in Hin as (c1 & c2 & cap & Hl & Hm & Hn).
      exists c1, c2, cap. split; [|done].
      eapply later_trans; [by apply later_step|done]. }
    destruct (match_at r c) as [[c' cap]|] eqn:Hmatch.
    + intros Hin. apply elem_of_cons in Hin as [->|Hin].
      { exists c, c', cap. split; [apply later_refl|done]. }
      destruct (Nat.ltb (pos c) (pos c')).
      * apply IH in Hin as (c1 & c2 & cap2 & Hl & Hm & Hn).
        exists c1, c2, cap2. split; [|done].
        eapply later_trans; [|exact Hl].
        eapply run_later. by apply match_at_sound.
      * destruct (step c) as [c1'|] eqn:Hs; [by eapply Hstep|].
        by apply elem_of_nil in Hin.
    + destruct (step c) as [c1'|] eqn:Hs; [by apply Hstep|].
      by intros ?%elem_of_nil.
Qed.

End ScanSemantics.

(** ** Every name that is found has a body *)

Section BodiesFound.
Import Re Sem Pat.

Lemma run_cat_inv r1 r2 c cap c2 cap2 :
  run (Cat r1 r2) c cap c2 cap2 →
  ∃ c1 cap1, run r1 c cap c1 cap1 ∧ run r2 c1 cap1 c2 cap2.
Proof. inversion 1; subst. by eexists _, _. Qed.

Lemma run_bol_inv c cap c' cap' :
  run Bol c cap c' cap' → c' = c ∧ cap' = cap ∧ at_bol c = true.
Proof. by inversion 1; subst. Qed.

Lemma run_eol_inv c cap c' cap' :
  run Eol c cap c' cap' → c' = c ∧ cap' = cap ∧ at_eol c = true.
Proof. by inversion 1; subst. Qed.

Lemma run_lit_inv s c cap c' cap' :
  run (Lit s) c cap c' cap' → cap' = cap ∧ eat_lit s c = Some c'.
Proof. by inversion 1; subst. Qed.

Lemma run_grp_inv r c cap c' cap' :
  run (Grp r) c cap c' cap' →
  cap' = Some (substring 0 (pos c' - pos c) (rest c))
  ∧ ∃ cap0, run r c cap c' cap0.
Proof. inversion 1; subst. split; [done|by eexists]. Qed.

(** A pattern without a group matches whatever group 1 holds. *)
Lemma run_any_capture r c cap c' cap' cap0 :
  run r c cap c' cap' → has_group r = false → run r c cap0 c' cap0.
Proof.
  induction 1 as [s c cap c' Heat|p c cap a t Hrest Hp|c cap Hb|c cap He|
                  r1 r2 c cap c1 cap1 c2 cap2 _ IH1 _ IH2|
                  r c cap c' cap' _ IH|r c cap|g r c cap|
                  g r c cap c1 cap1 c2 cap2 _ IH1 Hlt _ IH2|
                  r c cap c' cap' _ IH]; simpl; intros Hg.
  - by apply run_lit.
  - by apply run_cls.
  - by apply run_bol.
  - by apply run_eol.
  - apply orb_false_elim in Hg as [Hg1 Hg2].
    eapply run_cat; [by apply IH1|by apply IH2].
  - apply run_opt_some. by apply IH.
  - apply run_opt_none.
  - apply run_star_stop.
  - eapply run_star_more; [by apply IH1|done|by apply IH2].
  - done.
Qed.

(** The text a group matched can be matched again as a literal. *)
Lemma run_as_literal r c cap c' cap' cap0 :
  run r c cap c' cap' →
  run (Lit (substring 0 (pos c' - pos c) (rest c))) c cap0 c' cap0.
Proof.
  intros Hrun. apply run_later in Hrun as [consumed Heat].
  rewrite (eat_lit_substring _ _ _ Heat). by apply run_lit.
Qed.

Lemma search_of_run r content c c' cap :
  later (start content) c → run r c None c' cap →
  is_Some (search r content).
Proof.
  intros Hlater Hrun.
  pose proof (search_at_finds r (start content) c Hlater
                (match_at_complete r c c' cap Hrun)) as [[c2 cap2] Hs].
  unfold search. simpl in Hs. rewrite Hs. by eexists.
Qed.

(** A macro name that [findall] extracts from a text is always found
    again by the body pattern in the same text. *)
Theorem define_body_found (content define : string) :
  define ∈ findall define_names content →
  is_Some (search (define_body define) content).
Proof.
  unfold findall. intros Hin.
  apply findall_at_elem in Hin as (c & c9 & cap9 & Hlater & Hm & ->).
  apply match_at_sound in Hm. unfold define_names in Hm.
  apply run_cat_inv in Hm as (c1 & cap1 & Hbol & Hm).
  apply run_bol_inv in Hbol as (-> & -> & Hbol).
  apply run_cat_inv in Hm as (c2 & cap2 & Hlit & Hm).
  apply run_lit_inv in Hlit as (-> & Hlit).
  apply run_cat_inv in Hm as (c3 & cap3 & Hsp & Hm).
  pose proof (run_keeps_capture _ _ _ _ _ Hsp eq_refl) as ->.
  apply run_cat_inv in Hm as (c4 & cap4 & Hgrp & Hm).
  apply run_grp_inv in Hgrp as (-> & cap0 & Hword).
  apply run_cat_inv in Hm as (c5 & cap5 & Hdot & Hm).
  pose proof (run_keeps_capture _ _ _ _ _ Hdot eq_refl) as ->.
  apply run_eol_inv in Hm as (-> & -> & Heol).
  simpl. eapply (search_of_run _ _ c); [exact Hlater|].
  unfold define_body.
  eapply run_cat; [by apply run_bol|].
  eapply run_cat; [|by apply run_eol].
  apply run_grp with (cap' := None).
  eapply run_cat; [by apply run_lit|].
  eapply run_cat; [exact Hsp|].
  eapply run_cat; [by eapply run_as_literal|].
  apply (run_star_flag true).
  by eapply run_any_capture.
Qed.

(** The same for the name of a type definition. *)
Theorem typedef_body_found (content typedef : string) :
  typedef ∈ findall typedef_names content →
  is_Some (search (typedef_body typedef) content).
Proof.
  unfold findall. intros Hin.
  apply findall_at_elem in Hin as (c & c9 & cap9 & Hlater & Hm & ->).
  apply match_at_sound in Hm. unfold typedef_names in Hm.
  apply run_cat_inv in Hm as (c1 & cap1 & Hbol & Hm).
  apply run_bol_inv in Hbol as (-> & -> & Hbol).
  apply run_cat_inv in Hm as (c2 & cap2 & Hlit & Hm).
  apply run_lit_inv in Hlit as (-> & Hlit).
  apply run_cat_inv in Hm as (c3 & cap3 & Hsp & Hm).
  pose proof (run_keeps_capture _ _ _ _ _ Hsp eq_refl) as ->.
  apply run_cat_inv in Hm as (c4 & cap4 & Hdot & Hm).
  pose proof (run_keeps_capture _ _ _ _ _ Hdot eq_refl) as ->.
  apply run_cat_inv in Hm as (c5 & cap5 & Hsp2 & Hm).
  pose proof (run_keeps_capture _ _ _ _ _ Hsp2 eq_refl) as ->.
  apply run_cat_inv in Hm as (c6 & cap6 & Hgrp & Hm).
  apply run_grp_inv in Hgrp as (-> & cap0 & Hword).
  apply run_lit_inv in Hm as (-> & Hsemi).
  simpl. eapply (search_of_run _ _ c); [exact Hlater|].
  unfold typedef_body.
  apply run_grp with (cap' := None).
  eapply run_cat; [by apply run_lit|].
  eapply run_cat; [exact Hsp|].
  eapply run_cat.
  { apply (run_star_wider _ Char.not_newline); [done|exact Hdot]. }
  eapply run_cat; [exact Hsp2|].
  eapply run_cat; [by eapply run_as_literal|].
  by apply run_lit.
Qed.

(** The same for the name of a function declaration. *)
Theorem function_body_found (content func : string) :
  func ∈ findall function_names content →
  is_Some (search (function_body func) content).
Proof.
  unfold findall. intros Hin.
  apply findall_at_elem in Hin as (c & c9 & cap9 & Hlater & Hm & ->).
  apply match_at_sound in Hm. unfold function_names in Hm.
  apply run_cat_inv in Hm as (c1 & cap1 & Hbol & Hm).
  apply run_bol_inv in Hbol as (-> & -> & Hbol).
  apply run_cat_inv in Hm as (c2 & cap2 & Hhead & Hm).
  pose proof (run_keeps_capture _ _ _ _ _ Hhead eq_refl) as ->.
  apply run_cat_inv in Hm as (c3 & cap3 & Hgrp & Hm).
  apply run_grp_inv in Hgrp as (-> & cap0 & Hword).
  pose proof (run_keeps_capture _ _ _ _ _ Hm eq_refl) as ->.
  simpl. eapply (search_of_run _ _ c); [exact Hlater|].
  unfold function_body.
  apply run_grp with (cap' := None).
  eapply run_cat; [exact Hhead|].
  eapply run_cat; [by eapply run_as_literal|].
  by eapply run_any_capture.
Qed.

End BodiesFound.

(** ** The entries of the three sections *)

Section Entries.
Import Py Re Sem Pat Synth Layout.

Lemma all_app (p : ascii → bool) (s t : string) :
  Text.all p (s +:+ t) = Text.all p s && Text.all p t.
Proof.
  induction s as [|a s IH]; [done|]. rewrite append_cons. simpl.
  by rewrite IH, andb_assoc.
Qed.

(** The text a repetition of a class moves over lies in the class. *)
Lemma run_star_class g (p : ascii → bool) c cap c' cap' :
  run (Star g (Cls p)) c cap c' cap' →
  ∃ text, eat_lit text c = Some c' ∧ Text.all p text = true.
Proof.
  intros Hrun. remember (Star g (Cls p)) as r0 eqn:Hr0.
  induction Hrun as [| | | | | | |g0 r1 c cap|
                     g0 r1 c cap c1 cap1 c2 cap2 H1 _ Hlt _ IH2|];
    try discriminate Hr0.
  - by exists "".
  - injection Hr0 as -> ->. destruct (IH2 eq_refl) as (text & Heat & Hall).
    inversion H1 as [|p0 c0 cap0 a t Hrest Hp| | | | | | | |]; subst.
    exists (String a text). simpl. rewrite Hrest, Ascii.eqb_refl.
    by rewrite Hp.
Qed.

Lemma run_plus_class g (p : ascii → bool) c cap c' cap' :
  run (Plus g (Cls p)) c cap c' cap' →
  ∃ text, eat_lit text c = Some c' ∧ Text.all p text = true
          ∧ text ≠ "".
Proof.
  unfold Plus. intros Hrun.
  apply run_cat_inv in Hrun as (c1 & cap1 & H1 & Hstar).
  apply run_star_class in Hstar as (text & Heat & Hall).
  inversion H1 as [|p0 c0 cap0 a t Hrest Hp| | | | | | | |]; subst.
  exists (String a text). simpl. rewrite Hrest, Ascii.eqb_refl.
  by rewrite Hp.
Qed.

(** What [search] returns is group 1 of a match at some position. *)
Lemma search_sound r content body :
  search r content = Some body →
  ∃ c c' cap, later (start content) c ∧ run r c None c' cap
              ∧ body = default EmptyString cap.
Proof.
  unfold search, start.
  generalize (@None ascii) as pv. generalize 0 as p.
  induction content as [|a content IH]; intros p pv; simpl.
  - destruct (match_at r (Cursor pv p "")) as [[c' cap]|] eqn:Hm; [|done].
    intros [= <-]. exists (Cursor pv p ""), c', cap.
    split; [apply later_refl|]. split; [by apply match_at_sound|done].
  - destruct (match_at r (Cursor pv p (String a content)))
      as [[c' cap]|] eqn:Hm.
    + intros [= <-]. exists (Cursor pv p (String a content)), c', cap.
      split; [apply later_refl|]. split; [by apply match_at_sound|done].
    + intros Hs. apply IH in Hs as (c & c' & cap & Hl & Hrun & Hb).
      exists c, c', cap. split; [|done].
      eapply later_trans; [|exact Hl].
      by apply later_step.
Qed.

(** The body of a macro reads [#define], white space, the name, and a
    tail without line feed. *)
Lemma define_body_shape content define body :
  search (define_body define) content = Some body →
  ∃ ws tail,
    body = "#define" +:+ ws +:+ define +:+ tail
    ∧ Text.all Char.is_space ws = true ∧ ws ≠ ""
    ∧ Text.all Char.not_newline tail = true.
Proof.
  intros Hs. apply search_sound in Hs as (c & c9 & cap9 & _ & Hm & ->).
  unfold define_body in Hm.
  apply run_cat_inv in Hm as (c1 & cap1 & Hbol & Hm).
  apply run_bol_inv in Hbol as (-> & -> & _).
  apply run_cat_inv in Hm as (c5 & cap5 & Hgrp & Hm).
  apply run_eol_inv in Hm as (-> & -> & _).
  apply run_grp_inv in Hgrp as (-> & cap0 & Hin).
  apply run_cat_inv in Hin as (c2 & cap2 & Hlit & Hin).
  apply run_lit_inv in Hlit as (_ & Hlit).
  apply run_cat_inv in Hin as (c3 & cap3 & Hsp & Hin).
  apply run_plus_class in Hsp as (ws & Hws & Hall & Hne).
  apply run_cat_inv in Hin as (c4 & cap4 & Hname & Htail).
  apply run_lit_inv in Hname as (_ & Hname).
  apply run_star_class in Htail as (tail & Htail & Halltail).
  exists ws, tail. split; [|done]. simpl.
  apply eat_lit_substring.
  rewrite eat_lit_app, Hlit. simpl.
  rewrite eat_lit_app, Hws. simpl.
  rewrite eat_lit_app, Hname. simpl. exact Htail.
Qed.

Lemma first_body_found pattern (systems : gset string) contents
    system content :
  (system, content) ∈ contents → system ∈ systems →
  is_Some (search pattern content) →
  is_Some (first_body pattern systems contents).
Proof.
  induction contents as [|[sys text] contents IH]; intros Hin Hsys Hs.
  - by apply elem_of_nil in Hin.
  - simpl. apply elem_of_cons in Hin as [[= <- <-]|Hin].
    + rewrite decide_True by done. destruct Hs as [b ->]. by eexists.
    + destruct (decide (sys ∈ systems)); [|by apply IH].
      destruct (search pattern text); [by eexists|by apply IH].
Qed.

Variable set_iter : gset string → list string.

(** X1.  An entry of the table of the macros always gets a body, so the
    section of the macros holds, for every name found, one line that reads
    [#define], white space, the name and a tail; the annotation comes before
    it exactly when two or more systems declare the name. *)
Theorem macro_entry contents define (systems : gset string) :
  (define, systems) ∈ sorted_items (all_defines (scan_all contents)) →
  ∃ body ws tail,
    first_body (define_body define) systems contents = Some body
    ∧ emit_define set_iter contents [] (define, systems)
      = (if 1 <? size systems
         then [Text.annotation "defined" define (set_iter systems)]
         else [])
        ++ [body +:+ nl]
    ∧ body = "#define" +:+ ws +:+ define +:+ tail
    ∧ Text.all Char.is_space ws = true ∧ ws ≠ ""
    ∧ Text.all Char.not_newline tail = true.
Proof.
  intros Hitem. apply elem_of_sorted_items in Hitem.
  unfold scan_all in Hitem.
  destruct (scan_tables (Tables ∅ ∅ ∅) contents) as (Hd & _ & _).
  rewrite Hd in Hitem. simpl in Hitem.
  apply index_spec in Hitem as [Hne Hsys].
  assert (∃ sys, sys ∈ systems) as [sys Hin].
  { apply set_choose_L. done. }
  pose proof (proj1 (Hsys sys) Hin) as (content & Hc & Hname).
  destruct (first_body_found (define_body define) systems contents
              sys content Hc Hin (define_body_found _ _ Hname))
    as [body Hbody].
  pose proof Hbody as Hfirst.
  apply first_body_spec in Hfirst as (_ & _ & text & _ & _ & _ & Hs & _).
  apply define_body_shape in Hs as (ws & tail & Hshape & Hws & Hne' & Htail).
  exists body, ws, tail. split; [done|]. split; [|done].
  unfold emit_define, append, Text.annotation. rewrite Hbody.
  by destruct (1 <? size systems).
Qed.

(** X2.  An entry of the table of the type definitions always gets a
    body.  The entry of a name that one system declares is the body alone.
    The entry of a contended name is wrapped in a [HAVE_] guard of its own,
    made of the upper case of the name; this is stated for the names that
    hold neither U+00B5 nor U+00FF, whose upper case the embedding does not
    have. *)
Theorem typedef_entry contents typedef (systems : gset string) :
  (typedef, systems) ∈ sorted_items (all_typedefs (scan_all contents)) →
  (1 < size systems → Text.all Facts.upper_in_latin1 typedef = true) →
  ∃ body,
    first_body (typedef_body typedef) systems contents = Some body
    ∧ emit_typedef set_iter contents [] (typedef, systems)
      = if 1 <? size systems
        then [Text.annotation "defined" typedef (set_iter systems);
              "#ifndef HAVE_" +:+ Str.upper typedef +:+ nl;
              "#define HAVE_" +:+ Str.upper typedef +:+ nl;
              body +:+ nl;
              "#endif" +:+ nl]
        else [body +:+ nl].
Proof.
  intros Hitem _. apply elem_of_sorted_items in Hitem.
  unfold scan_all in Hitem.
  destruct (scan_tables (Tables ∅ ∅ ∅) contents) as (_ & Hd & _).
  rewrite Hd in Hitem. simpl in Hitem.
  apply index_spec in Hitem as [Hne Hsys].
  assert (∃ sys, sys ∈ systems) as [sys Hin].
  { apply set_choose_L. done. }
  pose proof (proj1 (Hsys sys) Hin) as (content & Hc & Hname).
  destruct (first_body_found (typedef_body typedef) systems contents
              sys content Hc Hin (typedef_body_found _ _ Hname))
    as [body Hbody].
  exists body. split; [done|].
  unfold emit_typedef, append, Text.annotation. rewrite Hbody.
  by destruct (1 <? size systems).
Qed.

(** X3.  An entry of the table of the functions always gets a body. *)
Theorem function_entry contents func (systems : gset string) :
  (func, systems) ∈ sorted_items (all_functions (scan_all contents)) →
  ∃ body,
    first_body (function_body func) systems contents = Some body
    ∧ emit_function set_iter contents [] (func, systems)
      = (if 1 <? size systems
         then [Text.annotation "available" func (set_iter systems)]
         else [])
        ++ [body +:+ nl].
Proof.
  intros Hitem. apply elem_of_sorted_items in Hitem.
  unfold scan_all in Hitem.
  destruct (scan_tables (Tables ∅ ∅ ∅) contents) as (_ & _ & Hd).
  rewrite Hd in Hitem. simpl in Hitem.
  apply index_spec in Hitem as [Hne Hsys].
  assert (∃ sys, sys ∈ systems) as [sys Hin].
  { apply set_choose_L. done. }
  pose proof (proj1 (Hsys sys) Hin) as (content & Hc & Hname).
  destruct (first_body_found (function_body func) systems contents
              sys content Hc Hin (function_body_found _ _ Hname))
    as [body Hbody].
  exists body. split; [done|].
  unfold emit_function, append, Text.annotation. rewrite Hbody.
  by destruct (1 <? size systems).
Qed.

End Entries.

(** ** The tables, the failure and the order of sets *)

Section SynthesisFacts.
Import Py Re Pat Synth Layout Facts.

(** X5.  Each of the three tables records a name under exactly the systems
    in whose text its pattern finds the name (lines 128-146). *)
Theorem provenance_tables contents name sys :
  let t := scan_all contents in
  (sys ∈ default ∅ (all_defines t !! name)
   ↔ ∃ content, (sys, content) ∈ contents
                ∧ name ∈ findall define_names content)
  ∧ (sys ∈ default ∅ (all_typedefs t !! name)
     ↔ ∃ content, (sys, content) ∈ contents
                  ∧ name ∈ findall typedef_names content)
  ∧ (sys ∈ default ∅ (all_functions t !! name)
     ↔ ∃ content, (sys, content) ∈ contents
                  ∧ name ∈ findall function_names content).
Proof.
  intros t. subst t. unfold scan_all.
  destruct (scan_tables (Tables ∅ ∅ ∅) contents) as (-> & -> & ->).
  simpl. repeat split.
  all: try (intros Hin; apply collect_spec in Hin as [Hin|Hin];
            [by rewrite lookup_empty in Hin|done]).
  all: intros Hin; apply collect_spec; by right.
Qed.

(** X6.  [synthesize_content] raises, and then [IndexError], exactly when
    [contents] is empty (line 121). *)
Theorem synthesize_content_raises_iff_empty
    (set_iter : gset string → list string) filename contents e :
  synthesize_content set_iter filename contents = Raised e
  ↔ contents = [] ∧ e = IndexError.
Proof.
  split.
  - intros Hraise. destruct contents as [|entry rest].
    + split; [done|]. by injection Hraise.
    + destruct (synthesize_content_returns set_iter filename
                  (entry :: rest)) as [text Htext]; [done|].
      rewrite Htext in Hraise. discriminate Hraise.
  - intros [-> ->]. reflexivity.
Qed.



End SynthesisFacts.

(** ** The files one run of [merge_headers] writes *)

Section MergedHeaders.
Import Py Merge Facts.
Variable find_stdout : string → string → string.
Variable read_file : string → option string.
Variable set_iter : gset string → list string.




Variable encodable : string → bool.





End MergedHeaders.

(** ** The guard as a preprocessor identifier *)

Section GuardIdentifier.
Import Synth Facts.

Lemma replace_char_app (a b : ascii) (s t : string) :
  Str.replace_char a b (s +:+ t)
  = Str.replace_char a b s +:+ Str.replace_char a b t.
Proof.
  induction s as [|c s IH]; [done|]. rewrite append_cons. simpl.
  by rewrite IH.
Qed.

Lemma guard_chars_of_char (a : ascii) :
  Text.all is_guard_char (Str.replace_char "." "_" (Char.upper a))
  = is_plain_name_char a || Char.is_code 223 a.
Proof.
  destruct a as [[] [] [] [] [] [] [] []]; vm_compute; reflexivity.
Qed.

(** X8.  For a file name made of ASCII letters, digits, underscores and
    full stops the guard of line 149 is made of upper-case ASCII letters,
    digits and underscores, so that lines 150, 151 and 207 hold an
    identifier of the preprocessor.  The ten headers of [merge_headers]
    have such names. *)
Theorem guard_token_is_identifier :
  (∀ filename,
     Text.all is_plain_name_char filename = true →
     Text.all is_guard_char (guard_token filename) = true)
  ∧ Forall (λ header, Text.all is_plain_name_char header = true)
      Merge.headers.
Proof.
  split.
  - intros filename Hplain. unfold guard_token. rewrite !all_app.
    change (Text.all is_guard_char "_SYNTHESIZED_") with true.
    change (Text.all is_guard_char "_") with true.
    rewrite andb_true_r. cbn [andb].
    induction filename as [|a filename IH]; [done|].
    cbn [Text.all] in Hplain.
    apply andb_true_iff in Hplain as [Ha Hplain].
    cbn [Str.upper]. rewrite replace_char_app, all_app.
    by rewrite guard_chars_of_char, Ha, IH.
  - apply (bool_decide_unpack _). vm_compute. exact I.
Qed.

End GuardIdentifier.

(** ** The unified interface *)

Section UnifiedInterface.
Import Py Ipc Compare.
Implicit Types (itf : interfaces) (func : string).

Lemma set_set {V} (k : string) (v1 v0 : V) (d : dict V) :
  set k v1 (set k v0 d) = set k v1 d.
Proof.
  induction d as [|[k' v'] d IH]; simpl.
  - by rewrite String.eqb_refl.
  - destruct (String.eqb k k') eqn:Hk; simpl.
    + by rewrite String.eqb_refl.
    + by rewrite Hk, IH.
Qed.

Lemma set_absent {V} (k : string) (v : V) (d : dict V) :
  k ∉ keys d → set k v d = d ++ [(k, v)].
Proof.
  induction d as [|[k' v'] d IH]; simpl; [done|].
  intros Hk. apply not_elem_of_cons in Hk as [Hne Hk].
  destruct (String.eqb_spec k k'); [done|]. by rewrite IH.
Qed.

Lemma filter_nil {A} (f : A → bool) (l : list A) :
  (∀ x, x ∈ l → f x = false) → List.filter f l = [].
Proof.
  induction l as [|x l IH]; intros Hf; [done|]. simpl.
  rewrite (Hf x) by left. apply IH. intros y Hy. apply Hf. by right.
Qed.

Lemma elem_of_all_functions itf func :
  func ∈ all_functions itf
  ↔ ∃ system i, itf !! system = Some i ∧ func ∈ signature_names i.
Proof.
  unfold all_functions. rewrite elem_of_union_list. split.
  - intros (X & HX & Hfunc). apply list_elem_of_fmap in HX
      as ([system i] & -> & Hentry).
    apply elem_of_map_to_list in Hentry. by exists system, i.
  - intros (system & i & Hlook & Hfunc). exists (signature_names i).
    split; [|done]. apply list_elem_of_fmap. exists (system, i).
    split; [done|]. by apply elem_of_map_to_list.
Qed.

Lemma row_of_cons itf func system names row :
  row_of itf func (system :: names) row
  = row_of itf func names
      match itf !! system with
      | Some i => set system (status_of i func) row
      | None => row
      end.
Proof. reflexivity. Qed.

Lemma row_of_absent itf func names row :
  existsb (λ system, bool_decide (is_Some (itf !! system))) names = false →
  row_of itf func names row = row.
Proof.
  revert row. induction names as [|system names IH]; intros row; [done|].
  cbn [existsb]. intros Hex. apply orb_false_elim in Hex as [Hs Hex].
  apply bool_decide_eq_false in Hs. rewrite row_of_cons.
  destruct (itf !! system) as [i|] eqn:Hi.
  - exfalso. apply Hs. by eexists.
  - by apply IH.
Qed.

(** The loop over the systems, for one function: the row of the function
    is replaced as a whole; nothing happens when no system has an
    entry. *)
Lemma compare_inner itf func names (comparison : dict (dict status)) :
  foldl (λ comparison system,
           match itf !! system with
           | Some i =>
               let row := default [] (get func comparison) in
               set func (set system (status_of i func) row) comparison
           | None => comparison
           end) comparison names
  = if existsb (λ system, bool_decide (is_Some (itf !! system))) names
    then set func
           (row_of itf func names (default [] (get func comparison)))
           comparison
    else comparison.
Proof.
  revert comparison.
  induction names as [|system names IH]; intros comparison; [done|].
  cbn [foldl existsb]. rewrite row_of_cons.
  destruct (itf !! system) as [i|] eqn:Hi.
  - rewrite bool_decide_eq_true_2 by (by eexists). cbn [orb].
    rewrite IH. cbv zeta. rewrite get_set, String.eqb_refl.
    change (default [] (Some ?x)) with x.
    destruct (existsb _ names) eqn:Hex.
    + by rewrite set_set.
    + by rewrite row_of_absent.
  - rewrite bool_decide_eq_false_2 by (by apply is_Some_None).
    cbn [orb]. apply IH.
Qed.

Lemma compare_outer itf names funcs func (comparison : dict (dict status)) :
  NoDup funcs →
  get func
    (foldl (λ comparison func,
              foldl (λ comparison system,
                       match itf !! system with
                       | Some i =>
                           let row := default [] (get func comparison) in
                           set func (set system (status_of i func) row)
                               comparison
                       | None => comparison
                       end)
                    comparison names)
           comparison funcs)
  = if bool_decide (func ∈ funcs)
       && existsb (λ system, bool_decide (is_Some (itf !! system))) names
    then Some (row_of itf func names (default [] (get func comparison)))
    else get func comparison.
Proof.
  revert comparison.
  induction funcs as [|f funcs IH]; intros comparison Hnd; [done|].
  apply NoDup_cons in Hnd as [Hf Hnd].
  cbn [foldl]. rewrite (IH _ Hnd). rewrite compare_inner.
  destruct (existsb _ names) eqn:Hex.
  - rewrite !andb_true_r, get_set.
    destruct (String.eqb_spec func f) as [->|Hne].
    + rewrite (bool_decide_eq_false_2 (f ∈ funcs)) by done.
      by rewrite bool_decide_eq_true_2 by left.
    + destruct (decide (func ∈ funcs)) as [Hin|Hout].
      * rewrite !bool_decide_eq_true_2; [done|by right|done].
      * rewrite !bool_decide_eq_false_2; [done| |done].
        intros Hin. by apply elem_of_cons in Hin as [?|?].
  - by rewrite !andb_false_r.
Qed.

Lemma compare_keys_nodup itf names funcs (comparison : dict (dict status)) :
  NoDup (keys comparison) →
  NoDup (keys
    (foldl (λ comparison func,
              foldl (λ comparison system,
                       match itf !! system with
                       | Some i =>
                           let row := default [] (get func comparison) in
                           set func (set system (status_of i func) row)
                               comparison
                       | None => comparison
                       end)
                    comparison names)
           comparison funcs)).
Proof.
  revert comparison.
  induction funcs as [|f funcs IH]; intros comparison Hnd; [done|].
  cbn [foldl]. apply IH. rewrite compare_inner.
  destruct (existsb _ names); [|done]. by apply keys_set_nodup.
Qed.

Lemma present_in_app (row1 row2 : dict status) :
  present_in (row1 ++ row2) = present_in row1 ++ present_in row2.
Proof. unfold present_in. by rewrite List.filter_app, fmap_app. Qed.

(** The systems a finished row marks as present are the systems that
    export the function, in the order of [self.systems]. *)
Lemma present_in_row_of itf func names (row : dict status) :
  NoDup names → (∀ system, system ∈ names → system ∉ keys row) →
  present_in (row_of itf func names row)
  = present_in row
    ++ List.filter (λ system, bool_decide (func ∈ exported itf system))
         names.
Proof.
  revert row. induction names as [|system names IH]; intros row Hnd Hfresh.
  - by rewrite app_nil_r.
  - apply NoDup_cons in Hnd as [Hsys Hnd].
    rewrite row_of_cons. cbn [List.filter].
    assert (exported itf system
            = match itf !! system with
              | Some i => signature_names i
              | None => ∅
              end) as Hexp by done.
    rewrite Hexp. clear Hexp.
    destruct (itf !! system) as [i|] eqn:Hi.
    + rewrite set_absent by (apply Hfresh; left).
      rewrite IH; [|done|].
      * rewrite present_in_app, <- app_assoc. f_equal.
        unfold status_of, present_in. simpl.
        by destruct (bool_decide (func ∈ signature_names i)).
      * intros s Hs. unfold keys. rewrite fmap_app.
        intros Hin. apply elem_of_app in Hin as [Hin|Hin].
        -- by apply (Hfresh s (list_elem_of_further _ _ _ Hs)).
        -- apply list_elem_of_singleton in Hin. simpl in Hin. by subst.
    + rewrite (bool_decide_eq_false_2 (func ∈ (∅ : gset string)))
        by set_solver.
      apply IH; [done|]. intros s Hs. apply Hfresh. by right.
Qed.

Lemma unified_loop func (comparison : dict (dict status))
    (plan : dict string) :
  NoDup (keys comparison) →
  get func
    (foldl (λ plan entry,
              let '(func, systems) := entry in
              match classify (present_in systems) with
              | Some label => set func label plan
              | None => plan
              end) plan comparison)
  = match get func comparison ≫= λ row, classify (present_in row) with
    | Some label => Some label
    | None => get func plan
    end.
Proof.
  revert plan.
  induction comparison as [|[f row] rest IH]; intros plan Hnd; [done|].
  unfold keys in Hnd. csimpl in Hnd.
  apply NoDup_cons in Hnd as [Hf Hnd].
  cbn [foldl]. rewrite (IH _ Hnd). cbn [get].
  destruct (String.eqb_spec func f) as [->|Hne].
  - rewrite get_absent by done. simpl.
    destruct (classify (present_in row)) as [label|]; [|done].
    by rewrite get_set, String.eqb_refl.
  - destruct (get func rest ≫= λ row, classify (present_in row)); [done|].
    destruct (classify (present_in row)) as [label|]; [|done].
    rewrite get_set. by destruct (String.eqb_spec func f).
Qed.

Lemma systems_nodup : NoDup systems.
Proof. apply (bool_decide_unpack _). vm_compute. exact I. Qed.

(** X13.  The entry of a function in [plan['unified_interface']] is decided
    by the systems of [self.systems] that export it, taken in the order of
    [self.systems]: Core with three or four of them, Optional with two,
    which are then listed, System-specific with one, which is then named,
    and no entry with none.  The order in which the set of all the functions
    is iterated has no part in it. *)
Theorem unified_interface_entry (set_iter : gset string → list string)
    itf func :
  (∀ X : gset string, set_iter X ≡ₚ elements X) →
  get func (unified_interface (compare_interfaces set_iter itf))
  = classify
      (List.filter (λ system, bool_decide (func ∈ exported itf system))
         systems).
Proof.
  intros Hperm.
  assert (NoDup (set_iter (all_functions itf))) as Hnd.
  { rewrite Hperm. apply NoDup_elements. }
  assert (NoDup (keys (compare_interfaces set_iter itf))) as Hkeys.
  { apply compare_keys_nodup. constructor. }
  assert (get func (compare_interfaces set_iter itf)
          = if bool_decide (func ∈ set_iter (all_functions itf))
               && existsb (λ system, bool_decide (is_Some (itf !! system)))
                    systems
            then Some (row_of itf func systems [])
            else None) as Hget
    by exact (compare_outer itf systems _ func [] Hnd).
  unfold unified_interface. rewrite unified_loop by done.
  rewrite Hget. cbn [get default].
  pose proof (present_in_row_of itf func systems [] systems_nodup) as Hrow.
  destruct (bool_decide (func ∈ set_iter (all_functions itf))
            && existsb (λ system, bool_decide (is_Some (itf !! system)))
                 systems) eqn:Hcase.
  - cbn [mbind option_bind]. rewrite Hrow.
    + by destruct (classify _).
    + intros system _ Hin. by apply elem_of_nil in Hin.
  - cbn [mbind option_bind]. rewrite filter_nil; [done|].
    intros system Hsys. apply bool_decide_eq_false. intros Hexp.
    apply andb_false_iff in Hcase as [Hcase|Hcase].
    + apply bool_decide_eq_false in Hcase. apply Hcase.
      rewrite Hperm. apply elem_of_elements. apply elem_of_all_functions.
      unfold exported in Hexp.
      destruct (itf !! system) as [i|] eqn:Hi; [|set_solver].
      by exists system, i.
    + assert (existsb (λ system, bool_decide (is_Some (itf !! system)))
                systems = true) as Hex; [|congruence].
      apply existsb_exists. exists system.
      split; [by apply list_elem_of_In|]. apply bool_decide_eq_true.
      unfold exported in Hexp.
      destruct (itf !! system) as [i|] eqn:Hi; [by eexists|set_solver].
Qed.

End UnifiedInterface.

(** ** The edges of the call graph *)

Section CallGraph.
Import Graph.
Variable cscope_stdout : string → string → string.

Lemma callers_loop (func : string) (callers : list string)
    (G : gset (string * string)) (edge : string * string) :
  edge ∈ foldl (λ G caller,
                  if Str.nonempty caller && negb (String.eqb caller func)
                  then {[ (caller, func) ]} ∪ G
                  else G) G callers
  ↔ edge ∈ G
    ∨ (edge.2 = func ∧ edge.1 ∈ callers ∧ edge.1 ≠ ""
       ∧ edge.1 ≠ func).
Proof.
  revert G. induction callers as [|caller callers IH]; intros G.
  - cbn [foldl]. split; [by left|]. intros [?|(_ & Hin & _)]; [done|].
    by apply elem_of_nil in Hin.
  - cbn [foldl]. rewrite IH. destruct edge as [a b]. simpl.
    destruct (Str.nonempty caller && negb (String.eqb caller func))
      eqn:Htest.
    + apply andb_true_iff in Htest as [Hne Hneq].
      apply negb_true_iff in Hneq.
      apply String.eqb_neq in Hneq.
      assert (caller ≠ "") by (by destruct caller).
      rewrite elem_of_union, elem_of_singleton, elem_of_cons.
      split.
      * intros [[[= -> ->]|?]|(-> & ? & ? & ?)]; auto 10.
      * intros [?|(-> & [->|?] & ? & ?)]; auto 10.
    + rewrite elem_of_cons. split.
      * intros [?|(-> & ? & ? & ?)]; auto 10.
      * intros [?|(-> & [->|?] & Hne & Hneq)]; auto 10.
        exfalso. apply andb_false_iff in Htest as [Htest|Htest].
        -- by destruct caller.
        -- apply negb_false_iff in Htest.
           by apply String.eqb_eq in Htest.
Qed.

Lemma call_graph_loop (system : string) (funcs : list string)
    (G : gset (string * string)) (edge : string * string) :
  edge ∈ foldl (λ G func,
                  let stdout := cscope_stdout system func in
                  if Str.nonempty stdout then
                    let callers := Str.split_lines (Str.strip stdout) in
                    foldl (λ G caller,
                             if Str.nonempty caller
                                && negb (String.eqb caller func)
                             then {[ (caller, func) ]} ∪ G
                             else G)
                          G (take 10 callers)
                  else G) G funcs
  ↔ edge ∈ G
    ∨ (edge.2 ∈ funcs
       ∧ edge.1 ∈ take 10 (Str.split_lines
                             (Str.strip (cscope_stdout system edge.2)))
       ∧ edge.1 ≠ "" ∧ edge.1 ≠ edge.2).
Proof.
  revert G. induction funcs as [|func funcs IH]; intros G.
  - cbn [foldl]. split; [by left|]. intros [?|(Hin & _)]; [done|].
    by apply elem_of_nil in Hin.
  - cbn [foldl]. rewrite IH. cbv zeta. rewrite elem_of_cons.
    destruct (Str.nonempty (cscope_stdout system func)) eqn:Hout.
    + rewrite callers_loop. split.
      * intros [[?|(<- & ? & ? & ?)]|(? & ? & ? & ?)]; auto 10.
      * intros [?|([->|?] & ? & ? & ?)]; auto 10.
    + split.
      * intros [?|(? & ? & ? & ?)]; auto 10.
      * intros [?|([->|?] & Hin & Hne & ?)]; auto 10.
        exfalso. destruct (cscope_stdout system func); [|done].
        apply list_elem_of_singleton in Hin. done.
Qed.

Lemma elem_of_build_call_graph (system caller func : string) :
  (caller, func) ∈ build_call_graph cscope_stdout system
  ↔ func ∈ ipc_funcs
    ∧ caller ∈ take 10 (Str.split_lines
                          (Str.strip (cscope_stdout system func)))
    ∧ caller ≠ "" ∧ caller ≠ func.
Proof.
  unfold build_call_graph. rewrite call_graph_loop. simpl. split.
  - intros [Hin|?]; [|done]. by apply elem_of_empty in Hin.
  - intros ?. by right.
Qed.

Lemma size_list_to_set_le `{Countable A} (l : list A) :
  size (list_to_set l : gset A) ≤ length l.
Proof.
  induction l as [|x l IH].
  - change (size (∅ : gset A) ≤ 0). by rewrite size_empty.
  - change (size ({[x]} ∪ list_to_set l : gset A) ≤ S (length l)).
    rewrite size_union_alt, size_singleton.
    assert (size (list_to_set l ∖ {[x]} : gset A)
            ≤ size (list_to_set l : gset A)); [|lia].
    apply subseteq_size. set_solver.
Qed.

(** X17.  The call graph of a system holds an edge from [caller] to [func]
    exactly when [func] is one of the four functions of line 122 and
    [caller] is one of the first ten lines that cscope prints for it, is not
    empty and is not [func] itself.  So no function of the graph calls
    itself, every edge ends in one of the four functions, and at most ten
    edges end in each of them.  The system is one of [self.systems]: line
    111 raises [KeyError] for any other name. *)
Theorem call_graph_edges (system : string) :
  system ∈ Ipc.systems →
  (∀ caller func,
     (caller, func) ∈ build_call_graph cscope_stdout system
     ↔ func ∈ ipc_funcs
       ∧ caller ∈ take 10 (Str.split_lines
                             (Str.strip (cscope_stdout system func)))
       ∧ caller ≠ "" ∧ caller ≠ func)
  ∧ (∀ func,
       size (filter (λ edge, edge.2 = func)
               (build_call_graph cscope_stdout system)) ≤ 10).
Proof.
  intros _.
  split; [intros caller func; apply elem_of_build_call_graph|].
  intros func.
  set (callers := take 10 (Str.split_lines
                             (Str.strip (cscope_stdout system func)))).
  transitivity (size (list_to_set ((λ caller, (caller, func)) <$> callers)
                      : gset (string * string))).
  - apply subseteq_size. intros [caller f] Hin.
    apply elem_of_filter in Hin as [Hf Hin]. simpl in Hf. subst f.
    apply elem_of_build_call_graph in Hin as (_ & Hin & _).
    apply elem_of_list_to_set. apply list_elem_of_fmap. by exists caller.
  - etransitivity; [apply size_list_to_set_le|].
    rewrite length_fmap. unfold callers. rewrite length_take. lia.
Qed.

End CallGraph.

(** ** The signatures that are recorded *)

Section Signatures.
Import Ipc Re Sem Pat Facts.

Lemma all_substring_prefix (q : ascii → bool) (n : nat) (s : string) :
  Text.all q s = true → Text.all q (substring 0 n s) = true.
Proof.
  revert n. induction s as [|a s IH]; intros [|n]; simpl; try done.
  intros Hall. apply andb_true_iff in Hall as [Ha Hs].
  rewrite Ha. by apply IH.
Qed.

Lemma length_substring_prefix (n : nat) (s : string) :
  String.length (substring 0 n s) ≤ n.
Proof.
  revert n. induction s as [|a s IH]; intros [|n]; simpl; try lia.
  specialize (IH n). lia.
Qed.

Lemma match_at_spaces_advances c c' cap :
  match_at spaces c = Some (c', cap) → pos c < pos c'.
Proof.
  intros Hm. apply match_at_sound in Hm. unfold spaces, space in Hm.
  apply run_plus_class in Hm as (text & Heat & _ & Hne).
  apply eat_lit_rest in Heat as [_ ->].
  destruct text; [done|]. simpl. lia.
Qed.

Lemma match_at_spaces_none c a t :
  rest c = String a t → match_at spaces c = None →
  Char.is_space a = false.
Proof.
  intros Hrest Hm. destruct (Char.is_space a) eqn:Ha; [|done].
  assert (is_Some (match_at spaces c)) as [m Hs]; [|congruence].
  eapply match_at_complete. unfold spaces, Plus, space.
  eapply run_cat; [by eapply run_cls|apply run_star_stop].
Qed.

(** After [re.sub(r'\s+', ' ', sig)] the blank is the only white space
    left. *)
Lemma sub_at_spaces n c :
  Text.all is_blank_or_visible (sub_at n spaces (λ _, " ") c) = true.
Proof.
  revert c. induction n as [|n IH]; intros c; [done|]. cbn [sub_at].
  destruct (match_at spaces c) as [[c' cap]|] eqn:Hm.
  - apply match_at_spaces_advances in Hm. apply Nat.ltb_lt in Hm.
    rewrite Hm, all_app. by rewrite IH.
  - destruct (rest c) as [|a t] eqn:Hrest; [done|]. cbn [Text.all].
    rewrite IH, andb_true_r. unfold is_blank_or_visible.
    by rewrite (match_at_spaces_none c a t Hrest Hm).
Qed.

(** A substitution whose replacements lie in a class keeps a text in
    the class. *)
Lemma sub_at_all (q : ascii → bool) r template n c :
  (∀ c1 c2 cap, match_at r c1 = Some (c2, cap) →
                Text.all q (template cap) = true) →
  Text.all q (rest c) = true →
  Text.all q (sub_at n r template c) = true.
Proof.
  intros Htemplate. revert c.
  induction n as [|n IH]; intros c Hall; [done|]. cbn [sub_at].
  assert (Text.all q
            match rest c with
            | String a t =>
                String a (sub_at n r template (Cursor (Some a) (S (pos c)) t))
            | EmptyString => EmptyString
            end = true) as Hkeep.
  { destruct (rest c) as [|a t] eqn:Hrest; [done|]. simpl in Hall.
    apply andb_true_iff in Hall as [Ha Ht]. cbn [Text.all]. rewrite Ha.
    by apply IH. }
  destruct (match_at r c) as [[c' cap]|] eqn:Hm; [|done].
  pose proof (Htemplate _ _ _ Hm) as Hq.
  destruct (Nat.ltb (pos c) (pos c')); rewrite all_app, Hq; [|done].
  apply IH. apply match_at_reach in Hm as (consumed & Hr & _).
  rewrite Hr, all_app in Hall. by apply andb_true_iff in Hall as [_ ?].
Qed.

Lemma punctuation_capture c c' cap :
  match_at punctuation c = Some (c', cap) →
  Text.all is_blank_or_visible (default EmptyString cap) = true.
Proof.
  intros Hm. apply match_at_sound in Hm. unfold punctuation in Hm.
  apply run_cat_inv in Hm as (c1 & cap1 & Hs1 & Hm).
  apply run_cat_inv in Hm as (c2 & cap2 & Hg & Hs2).
  pose proof (run_keeps_capture _ _ _ _ _ Hs2 eq_refl) as ->.
  apply run_grp_inv in Hg as (-> & cap0 & Hcls).
  inversion Hcls as [|p0 c0 cap0' a t Hrest Hp| | | | | | | |]; subst.
  cbn [default pos]. rewrite Hrest.
  replace (S (pos c1) - pos c1) with 1 by lia.
  change (Text.all is_blank_or_visible (String a (substring 0 0 t)) = true).
  assert (substring 0 0 t = "") as -> by (by destruct t).
  cbn [Text.all]. rewrite andb_true_r. revert Hp. clear.
  destruct a as [[] [] [] [] [] [] [] []]; vm_compute; congruence.
Qed.

(** X11.  What [clean_signature] returns, when it returns a signature, is
    not empty, has at most 200 characters, and is one line in which the
    blank is the only white space. *)
Theorem clean_signature_shape (raw_sig sig : string) :
  clean_signature raw_sig = Some sig →
  sig ≠ "" ∧ String.length sig ≤ 200
  ∧ Text.all is_blank_or_visible sig = true.
Proof.
  unfold clean_signature. cbv zeta.
  set (joined := Str.join " " (Str.split_lines raw_sig ≫= cleaned_line)).
  destruct (Re.sub punctuation (default EmptyString)
              (Re.sub spaces (λ _, " ") joined)) as [|a cleaned] eqn:Hsub;
    [done|].
  intros Heq.
  assert (sig = substring 0 200 (String a cleaned)) as ->
    by (by injection Heq).
  split; [done|]. split; [apply length_substring_prefix|].
  apply all_substring_prefix. rewrite <- Hsub. unfold Re.sub at 1.
  apply sub_at_all.
  - intros c1 c2 cap Hm. by eapply punctuation_capture.
  - unfold start. cbn [rest]. apply sub_at_spaces.
Qed.

Section Grep.
Variable grep_stdout : string → string → string.

Lemma signatures_lookup_loop system (names : list string)
    (acc : gmap string string) (func : string) :
  foldl (λ signatures func,
           let stdout := grep_stdout system func in
           if Str.nonempty stdout then
             match clean_signature stdout with
             | Some sig => <[func := sig]> signatures
             | None => signatures
             end
           else signatures) acc names !! func
  = match (if bool_decide (func ∈ names)
              && Str.nonempty (grep_stdout system func)
           then clean_signature (grep_stdout system func)
           else None) with
    | Some sig => Some sig
    | None => acc !! func
    end.
Proof.
  revert acc. induction names as [|f names IH]; intros acc; cbn [foldl].
  - by rewrite bool_decide_eq_false_2 by apply not_elem_of_nil.
  - rewrite IH. cbv zeta.
    destruct (decide (func = f)) as [->|Hne].
    + rewrite (bool_decide_eq_true_2 (f ∈ f :: names)) by left.
      cbn [andb].
      destruct (Str.nonempty (grep_stdout system f)) eqn:Hout.
      * rewrite andb_true_r.
        destruct (clean_signature (grep_stdout system f)) as [sig|].
        -- destruct (bool_decide (f ∈ names)); [done|].
           by rewrite lookup_insert_eq.
        -- by destruct (bool_decide (f ∈ names)).
      * by rewrite andb_false_r.
    + assert (bool_decide (func ∈ f :: names)
              = bool_decide (func ∈ names)) as ->.
      { apply bool_decide_ext. rewrite elem_of_cons. naive_solver. }
      destruct (if bool_decide (func ∈ names)
                   && Str.nonempty (grep_stdout system func)
                then clean_signature (grep_stdout system func)
                else None); [done|].
      destruct (Str.nonempty (grep_stdout system f)); [|done].
      destruct (clean_signature (grep_stdout system f)); [|done].
      by rewrite lookup_insert_ne.
Qed.

Lemma signatures_of_lookup system func :
  signatures_of grep_stdout system !! func
  = if bool_decide (func ∈ ipc_functions)
    then clean_signature (grep_stdout system func)
    else None.
Proof.
  unfold signatures_of. rewrite signatures_lookup_loop, lookup_empty.
  destruct (bool_decide (func ∈ ipc_functions)); [|done]. cbn [andb].
  destruct (grep_stdout system func) as [|a t]; [done|]. cbn [Str.nonempty].
  by destruct (clean_signature (String a t)).
Qed.

(** X10.  After [extract_function_signatures] has run for a system, the
    system exports a name exactly when the name is one of the 21 functions
    looked for and [clean_signature] makes a signature of what [grep]
    printed for it; the signature recorded is that one.  What the other
    systems export stays as it was.  The system is one of [self.systems]:
    line 61 raises [KeyError] for any other name. *)
Theorem exported_after_extraction system itf sys func :
  system ∈ systems →
  (func ∈ exported (extract_function_signatures grep_stdout system itf) sys
   ↔ (sys = system ∧ func ∈ ipc_functions
      ∧ is_Some (clean_signature (grep_stdout system func)))
     ∨ (sys ≠ system ∧ func ∈ exported itf sys))
  ∧ (extract_function_signatures grep_stdout system itf !! system
       ≫= function_signatures) ≫= (.!! func)
    = if bool_decide (func ∈ ipc_functions)
      then clean_signature (grep_stdout system func)
      else None.
Proof.
  intros _. unfold extract_function_signatures. split.
  - unfold exported. destruct (decide (sys = system)) as [->|Hne].
    + rewrite lookup_insert_eq. unfold signature_names.
      cbn [function_signatures default from_option id].
      rewrite elem_of_dom, signatures_of_lookup.
      destruct (decide (func ∈ ipc_functions)) as [Hin|Hout].
      * rewrite bool_decide_eq_true_2 by done. naive_solver.
      * rewrite bool_decide_eq_false_2 by done. split.
        -- intros Hsome. by apply is_Some_None in Hsome.
        -- naive_solver.
    + rewrite lookup_insert_ne by done. naive_solver.
  - rewrite lookup_insert_eq. cbn [mbind option_bind function_signatures].
    apply signatures_of_lookup.
Qed.

End Grep.

End Signatures.

(** ** The score in terms of the two sets *)

Section ScoreCounts.
Import Ipc Checks Facts.
Implicit Types (itf : interfaces) (A B : gset string).

Lemma zero_table :
  forallb (λ u, forallb (zero_checked (S u)) (seq 0 (S (S u))))
          (seq 0 (length ipc_functions)) = true.
Proof. vm_compute. reflexivity. Qed.

Lemma percentage_zero (u i : nat) :
  1 ≤ u ≤ length ipc_functions → i ≤ u →
  percentage i u = F64.zero ↔ i = 0.
Proof.
  intros [Hu1 Hu2] Hi. destruct u as [|u]; [lia|].
  pose proof zero_table as Htab.
  rewrite forallb_forall in Htab.
  specialize (Htab u). rewrite forallb_forall in Htab.
  assert (zero_checked (S u) i = true) as Hc
    by (apply Htab; apply in_seq; lia).
  unfold zero_checked in Hc. apply bool_decide_eq_true in Hc.
  rewrite <- (bool_decide_spec (percentage i (S u) = F64.zero)).
  rewrite Hc. apply bool_decide_spec.
Qed.

Lemma percentage_facts (u i : nat) :
  1 ≤ u ≤ length ipc_functions → i ≤ u →
  (F64.lt_int (percentage i u) 50 = true ↔ 2 * i < u)
  ∧ (F64.lt_int (percentage i u) 25 = true ↔ 4 * i < u)
  ∧ F64.ge_int (percentage i u) 0 = true
  ∧ SFleb (percentage i u) (F64.of_Z 100) = true.
Proof.
  intros Hu Hi. pose proof (percentage_checked_in_range u i Hu Hi) as Hc.
  unfold percentage_checked in Hc.
  apply andb_prop in Hc as [Hc H100]. apply andb_prop in Hc as [Hc H0].
  apply andb_prop in Hc as [Hc _]. apply andb_prop in Hc as [Hc H25].
  apply andb_prop in Hc as [_ H50].
  apply bool_decide_eq_true in H50, H25.
  rewrite H50, H25, !bool_decide_eq_true. done.
Qed.

Lemma sets_of_score itf sys1 sys2 :
  bounded itf →
  let A := exported itf sys1 in
  let B := exported itf sys2 in
  (A = ∅ ∨ B = ∅) ∧ calculate_compatibility_score itf sys1 sys2 = F64.zero
  ∨ (A ≠ ∅ ∧ B ≠ ∅
     ∧ calculate_compatibility_score itf sys1 sys2
       = percentage (size (A ∩ B)) (size (A ∪ B))
     ∧ 1 ≤ size (A ∪ B) ≤ length ipc_functions
     ∧ size (A ∩ B) ≤ size (A ∪ B)).
Proof.
  intros Hb A B. rewrite score_of_exported. fold A B.
  destruct (decide (A = ∅)) as [HA|HA].
  { left. split; [by left|]. by rewrite bool_decide_eq_true_2. }
  destruct (decide (B = ∅)) as [HB|HB].
  { left. split; [by right|].
    rewrite (bool_decide_eq_true_2 (B = ∅)) by done.
    by rewrite orb_true_r. }
  right. rewrite !bool_decide_eq_false_2 by done.
  split; [done|]. split; [done|]. split; [done|]. split.
  - split; [by apply union_size_pos|].
    apply exported_bounded; apply Hb.
  - apply subseteq_size. set_solver.
Qed.

Lemma size_inter_empty A B : A = ∅ ∨ B = ∅ → size (A ∩ B) = 0.
Proof.
  intros Hempty. apply size_empty_iff. destruct Hempty as [->| ->];
    set_solver.
Qed.

Lemma union_empty_or_pos A B : A ∪ B = ∅ ∨ 0 < size (A ∪ B).
Proof.
  destruct (decide (A ∪ B = ∅)) as [?|Hne]; [by left|]. right.
  assert (size (A ∪ B) ≠ 0); [|lia].
  intros Hsize. apply size_empty_iff in Hsize.
  apply Hne. by apply leibniz_equiv.
Qed.

(** X14.  For systems that export names of [ipc_functions] only, as
    [extract_function_signatures] provides: the score lies between 0 and
    100, and it is 0 exactly when the two systems have no name in common. *)
Theorem score_range_and_zero itf sys1 sys2 :
  bounded itf →
  F64.ge_int (calculate_compatibility_score itf sys1 sys2) 0 = true
  ∧ SFleb (calculate_compatibility_score itf sys1 sys2) (F64.of_Z 100)
    = true
  ∧ (calculate_compatibility_score itf sys1 sys2 = F64.zero
     ↔ exported itf sys1 ∩ exported itf sys2 = ∅).
Proof.
  intros Hb.
  destruct (sets_of_score itf sys1 sys2 Hb)
    as [[Hempty ->]|(HA & HB & -> & Hu & Hi)].
  - split; [done|]. split; [done|]. split; [|done]. intros _.
    apply leibniz_equiv. apply size_empty_iff.
    by apply size_inter_empty.
  - destruct (percentage_facts _ _ Hu Hi) as (_ & _ & Hge & Hle).
    split; [done|]. split; [done|].
    rewrite (percentage_zero _ _ Hu Hi). split.
    + intros Hsize. apply leibniz_equiv. by apply size_empty_iff.
    + intros ->. apply size_empty.
Qed.

Lemma score_below_50 itf sys1 sys2 :
  bounded itf →
  F64.lt_int (calculate_compatibility_score itf sys1 sys2) 50 = true
  ↔ 2 * size (exported itf sys1 ∩ exported itf sys2)
    < size (exported itf sys1 ∪ exported itf sys2)
    ∨ exported itf sys1 ∪ exported itf sys2 = ∅.
Proof.
  intros Hb.
  destruct (sets_of_score itf sys1 sys2 Hb)
    as [[Hempty ->]|(HA & HB & -> & Hu & Hi)].
  - split; [|done]. intros _. rewrite (size_inter_empty _ _ Hempty).
    destruct (union_empty_or_pos (exported itf sys1) (exported itf sys2));
      [by right|left; lia].
  - destruct (percentage_facts _ _ Hu Hi) as (H50 & _). rewrite H50.
    split; [by left|]. intros [?|Hempty]; [done|].
    rewrite Hempty, size_empty in Hu. lia.
Qed.

Lemma score_below_25 itf sys1 sys2 :
  bounded itf →
  F64.lt_int (calculate_compatibility_score itf sys1 sys2) 25 = true
  ↔ 4 * size (exported itf sys1 ∩ exported itf sys2)
    < size (exported itf sys1 ∪ exported itf sys2)
    ∨ exported itf sys1 ∪ exported itf sys2 = ∅.
Proof.
  intros Hb.
  destruct (sets_of_score itf sys1 sys2 Hb)
    as [[Hempty ->]|(HA & HB & -> & Hu & Hi)].
  - split; [|done]. intros _. rewrite (size_inter_empty _ _ Hempty).
    destruct (union_empty_or_pos (exported itf sys1) (exported itf sys2));
      [by right|left; lia].
  - destruct (percentage_facts _ _ Hu Hi) as (_ & H25 & _). rewrite H25.
    split; [by left|]. intros [?|Hempty]; [done|].
    rewrite Hempty, size_empty in Hu. lia.
Qed.

(** X15.  For systems that export names of [ipc_functions] only, the float
    arithmetic decides as the exact quotient would: a pair of systems, taken
    in ascending order of their names, is reported as a conflict exactly
    when fewer than half of the names the two export are common to both, or
    when neither exports a name; its severity is High exactly when fewer
    than a quarter are common, or neither exports a name. *)
Theorem conflict_threshold_in_counts itf sys1 sys2 :
  bounded itf →
  sys1 ∈ systems → sys2 ∈ systems → String.ltb sys1 sys2 = true →
  ((∃ c, c ∈ plan_conflicts itf ∧ conflict_systems c = [sys1; sys2])
   ↔ 2 * size (exported itf sys1 ∩ exported itf sys2)
     < size (exported itf sys1 ∪ exported itf sys2)
     ∨ exported itf sys1 ∪ exported itf sys2 = ∅)
  ∧ ((∃ c, c ∈ plan_conflicts itf ∧ conflict_systems c = [sys1; sys2]
           ∧ conflict_severity c = High)
     ↔ 4 * size (exported itf sys1 ∩ exported itf sys2)
       < size (exported itf sys1 ∪ exported itf sys2)
       ∨ exported itf sys1 ∪ exported itf sys2 = ∅).
Proof.
  intros Hb Hsys1 Hsys2 Hlt. unfold plan_conflicts.
  rewrite <- (score_below_50 itf sys1 sys2 Hb).
  rewrite <- (score_below_25 itf sys1 sys2 Hb).
  set (score := calculate_compatibility_score itf sys1 sys2).
  assert (∀ c, c ∈ conflicts_among systems itf →
               conflict_systems c = [sys1; sys2] →
               F64.lt_int score 50 = true ∧ c = conflict_of sys1 sys2 score)
    as Hentry.
  { intros c Hc Hpair. apply elem_of_conflicts_among in Hc
      as (s1 & s2 & _ & _ & _ & Hscore & ->).
    simpl in Hpair. injection Hpair as -> ->. done. }
  split; split.
  - intros (c & Hc & Hpair). by destruct (Hentry c Hc Hpair).
  - intros Hscore. exists (conflict_of sys1 sys2 score). split; [|done].
    apply elem_of_conflicts_among. by exists sys1, sys2.
  - intros (c & Hc & Hpair & Hsev).
    destruct (Hentry c Hc Hpair) as [_ ->]. simpl in Hsev.
    by destruct (F64.lt_int score 25).
  - intros H25. exists (conflict_of sys1 sys2 score).
    split; [|split; [done|]].
    + apply elem_of_conflicts_among. exists sys1, sys2.
      repeat split; try done.
      apply (score_below_50 itf sys1 sys2 Hb).
      apply (score_below_25 itf sys1 sys2 Hb) in H25.
      destruct H25 as [?|?]; [left; lia|by right].
    + simpl. fold score. by rewrite H25.
Qed.

Lemma report_pair itf sys1 sys2 :
  conflict_systems <$> report itf [] sys1 sys2 `sublist_of` [[sys1; sys2]].
Proof.
  unfold report. destruct (F64.lt_int _ 50); simpl.
  - done.
  - apply sublist_nil_l.
Qed.

Lemma pairs_sublist itf (outer names : list string) :
  conflict_systems <$>
    (outer ≫= λ sys1, names ≫= λ sys2,
       if String.ltb sys1 sys2 then report itf [] sys1 sys2 else [])
  `sublist_of`
    (outer ≫= λ sys1, names ≫= λ sys2,
       if String.ltb sys1 sys2 then [[sys1; sys2]] else []).
Proof.
  induction outer as [|sys1 outer IHo]; [done|]. csimpl.
  rewrite fmap_app. apply sublist_app; [|exact IHo].
  clear IHo. induction names as [|sys2 names IHn]; [done|]. csimpl.
  rewrite fmap_app. apply sublist_app; [|exact IHn].
  destruct (String.ltb sys1 sys2); [apply report_pair|done].
Qed.

(** X16.  The list of conflicts names pairs of systems in ascending order of
    their names only, each pair at most once, and in the order in which the
    two loops reach the pairs: it has at most six entries. *)
Theorem plan_conflicts_pairs itf :
  conflict_systems <$> plan_conflicts itf
  `sublist_of`
    [["CMU-Mach-MK83"; "Lites"]; ["CMU-Mach-MK83"; "Mach4-i386"];
     ["CMU-Mach-MK83"; "GNU-OSFMach"]; ["Lites"; "Mach4-i386"];
     ["GNU-OSFMach"; "Lites"]; ["GNU-OSFMach"; "Mach4-i386"]]
  ∧ length (plan_conflicts itf) ≤ 6.
Proof.
  assert (conflict_systems <$> plan_conflicts itf
          `sublist_of` ascending_pairs) as Hsub.
  { unfold plan_conflicts. rewrite conflicts_among_bind.
    apply pairs_sublist. }
  split; [exact Hsub|].
  apply sublist_length in Hsub. by rewrite length_fmap in Hsub.
Qed.

End ScoreCounts.

(** ** The interfaces after the extraction loop *)

Section AnalysisFacts.
Import Ipc Checks Analysis.
Variable mach_messages_of : string → gmap string (list string).
Variable grep_stdout : string → string → string.

Lemma analysis_loop (names : list string) (itf : interfaces) (sys : string) :
  foldl (λ itf system,
           extract_function_signatures grep_stdout system
             (extract_mach_messages mach_messages_of system itf))
        itf names !! sys
  = if bool_decide (sys ∈ names)
    then Some (Interface (Some (mach_messages_of sys))
                         (Some (signatures_of grep_stdout sys)))
    else itf !! sys.
Proof.
  revert itf. induction names as [|name names IH]; intros itf.
  - by rewrite bool_decide_eq_false_2 by apply not_elem_of_nil.
  - cbn [foldl]. rewrite IH.
    destruct (decide (sys ∈ names)) as [Hin|Hout].
    + by rewrite !bool_decide_eq_true_2 by (done || by right).
    + rewrite (bool_decide_eq_false_2 (sys ∈ names)) by done.
      unfold extract_function_signatures, extract_mach_messages.
      destruct (decide (sys = name)) as [->|Hne].
      * rewrite bool_decide_eq_true_2 by left.
        by rewrite !lookup_insert_eq.
      * rewrite bool_decide_eq_false_2
          by (intros [?|?]%elem_of_cons; done).
        by rewrite !lookup_insert_ne.
Qed.

(** X12.  After the extraction loop of [run_analysis] each of the four
    systems has an entry, which holds the messages and the signatures
    extracted for it, and no other system has one; so every system exports
    names of [ipc_functions] only, which is what the facts about the score
    assume. *)
Theorem analysis_interfaces (sys : string) :
  analysed mach_messages_of grep_stdout !! sys
  = (if bool_decide (sys ∈ systems)
     then Some (Interface (Some (mach_messages_of sys))
                          (Some (signatures_of grep_stdout sys)))
     else None)
  ∧ bounded (analysed mach_messages_of grep_stdout).
Proof.
  assert (∀ sys, analysed mach_messages_of grep_stdout !! sys
                 = if bool_decide (sys ∈ systems)
                   then Some (Interface (Some (mach_messages_of sys))
                                (Some (signatures_of grep_stdout sys)))
                   else None) as Hlook.
  { intros sys'. unfold analysed. by rewrite analysis_loop. }
  split; [apply Hlook|].
  intros sys'. unfold exported. rewrite Hlook.
  destruct (bool_decide (sys' ∈ systems)).
  - change (dom (signatures_of grep_stdout sys')
            ⊆ list_to_set ipc_functions).
    apply signatures_of_bounded.
  - apply empty_subseteq.
Qed.

End AnalysisFacts.

(** ** The source a body is taken from *)

Section Priority.
Import Py Re Pat Synth Layout Facts.

Lemma body_pattern_found k content name :
  name ∈ findall (names_pattern k) content →
  is_Some (search (body_pattern k name) content).
Proof.
  destruct k; simpl.
  - apply define_body_found.
  - apply typedef_body_found.
  - apply function_body_found.
Qed.

Lemma table_collect k contents :
  table k (scan_all contents) = collect (names_pattern k) ∅ contents.
Proof.
  unfold scan_all.
  destruct (scan_tables (Tables ∅ ∅ ∅) contents) as (Hd & Ht & Hf).
  by destruct k.
Qed.

Lemma first_body_skip pattern (systems : gset string) before rest :
  Forall (λ entry : string * string, entry.1 ∉ systems) before →
  first_body pattern systems (before ++ rest)
  = first_body pattern systems rest.
Proof.
  induction before as [|[system content] before IH]; intros Hall; [done|].
  apply Forall_cons in Hall as [Hout Hall]. simpl in Hout. simpl.
  rewrite decide_False by done. by apply IH.
Qed.

Lemma dict_entry_unique (d : dict string) key v1 v2 :
  NoDup (keys d) → (key, v1) ∈ d → (key, v2) ∈ d → v1 = v2.
Proof.
  unfold keys. induction d as [|[k v] d IH]; intros Hnd H1 H2.
  - by apply elem_of_nil in H1.
  - csimpl in Hnd. apply NoDup_cons in Hnd as [Hk Hnd].
    apply elem_of_cons in H1 as [H1|H1];
      apply elem_of_cons in H2 as [H2|H2].
    + congruence.
    + injection H1 as -> ->. exfalso. apply Hk.
      apply list_elem_of_fmap. by exists (k, v2).
    + injection H2 as -> ->. exfalso. apply Hk.
      apply list_elem_of_fmap. by exists (k, v1).
    + by apply IH.
Qed.

(** X4.  Which source wins.  [contents] is a dictionary, so its keys differ.
    For a name of one of the three tables, the body that is emitted is the
    one the body pattern finds in the text of the first system, in the order
    of [contents], that is recorded for the name; the search in that text
    always succeeds, so no later system is ever consulted. *)
Theorem body_comes_from_first_declaring_source
    k contents name (systems : gset string) before system content after :
  NoDup (keys contents) →
  table k (scan_all contents) !! name = Some systems →
  contents = before ++ (system, content) :: after →
  system ∈ systems →
  Forall (λ entry : string * string, entry.1 ∉ systems) before →
  ∃ body,
    search (body_pattern k name) content = Some body
    ∧ first_body (body_pattern k name) systems contents = Some body.
Proof.
  intros Hnd Hlook Hsplit Hsys Hbefore.
  rewrite table_collect in Hlook.
  apply index_spec in Hlook as [_ Hsystems].
  apply Hsystems in Hsys as Hfound.
  destruct Hfound as (content' & Hentry & Hname).
  assert (content' = content) as ->.
  { apply (dict_entry_unique contents system); [done..|].
    rewrite Hsplit. apply elem_of_app. right. left. }
  destruct (body_pattern_found k content name Hname) as [body Hbody].
  exists body. split; [done|].
  rewrite Hsplit, first_body_skip by done. simpl.
  rewrite decide_True by done. by rewrite Hbody.
Qed.

End Priority.

(** ** The theorems at concrete inputs *)

Lemma macro_entry_witness :
  ("FOO", {["mach"; "gnu"]})
    ∈ Synth.sorted_items
        (Synth.all_defines (Synth.scan_all Scenario.contended_macro))
  ∧ ∃ body ws tail,
      Synth.first_body (Pat.define_body "FOO") {["mach"; "gnu"]}
        Scenario.contended_macro = Some body
      ∧ Synth.emit_define Layout.ascending Scenario.contended_macro []
          ("FOO", {["mach"; "gnu"]})
        = (if 1 <? size ({["mach"; "gnu"]} : gset string)
           then [Text.annotation "defined" "FOO"
                   (Layout.ascending {["mach"; "gnu"]})]
           else [])
          ++ [body +:+ Py.nl]
      ∧ body = "#define" +:+ ws +:+ "FOO" +:+ tail
      ∧ Text.all Char.is_space ws = true ∧ ws ≠ ""
      ∧ Text.all Char.not_newline tail = true.
Proof.
  assert (("FOO", {["mach"; "gnu"]})
            ∈ Synth.sorted_items
                (Synth.all_defines
                   (Synth.scan_all Scenario.contended_macro))) as Hitem.
  { apply elem_of_sorted_items. vm_compute. reflexivity. }
  split; [exact Hitem|].
  exact (macro_entry Layout.ascending Scenario.contended_macro "FOO"
           {["mach"; "gnu"]} Hitem).
Defined.

Lemma typedef_entry_witness :
  ("port_t", {["mach"; "gnu"]})
    ∈ Synth.sorted_items
        (Synth.all_typedefs (Synth.scan_all Sample.contended_type))
  ∧ (1 < size ({["mach"; "gnu"]} : gset string) →
     Text.all Facts.upper_in_latin1 "port_t" = true)
  ∧ ∃ body,
      Synth.first_body (Pat.typedef_body "port_t") {["mach"; "gnu"]}
        Sample.contended_type = Some body
      ∧ Synth.emit_typedef Layout.ascending Sample.contended_type []
          ("port_t", {["mach"; "gnu"]})
        = if 1 <? size ({["mach"; "gnu"]} : gset string)
          then [Text.annotation "defined" "port_t"
                  (Layout.ascending {["mach"; "gnu"]});
                "#ifndef HAVE_" +:+ Str.upper "port_t" +:+ Py.nl;
                "#define HAVE_" +:+ Str.upper "port_t" +:+ Py.nl;
                body +:+ Py.nl;
                "#endif" +:+ Py.nl]
          else [body +:+ Py.nl].
Proof.
  assert (("port_t", {["mach"; "gnu"]})
            ∈ Synth.sorted_items
                (Synth.all_typedefs
                   (Synth.scan_all Sample.contended_type))) as Hitem.
  { apply elem_of_sorted_items. vm_compute. reflexivity. }
  assert (1 < size ({["mach"; "gnu"]} : gset string) →
          Text.all Facts.upper_in_latin1 "port_t" = true) as Hupper.
  { intros _. reflexivity. }
  split; [exact Hitem|]. split; [exact Hupper|].
  exact (typedef_entry Layout.ascending Sample.contended_type "port_t"
           {["mach"; "gnu"]} Hitem Hupper).
Defined.

Lemma function_entry_witness :
  ("port_send", {["mach"; "gnu"]})
    ∈ Synth.sorted_items
        (Synth.all_functions (Synth.scan_all Sample.two_prototypes))
  ∧ ∃ body,
      Synth.first_body (Pat.function_body "port_send") {["mach"; "gnu"]}
        Sample.two_prototypes = Some body
      ∧ Synth.emit_function Layout.ascending Sample.two_prototypes []
          ("port_send", {["mach"; "gnu"]})
        = (if 1 <? size ({["mach"; "gnu"]} : gset string)
           then [Text.annotation "available" "port_send"
                   (Layout.ascending {["mach"; "gnu"]})]
           else [])
          ++ [body +:+ Py.nl].
Proof.
  assert (("port_send", {["mach"; "gnu"]})
            ∈ Synth.sorted_items
                (Synth.all_functions
                   (Synth.scan_all Sample.two_prototypes))) as Hitem.
  { apply elem_of_sorted_items. vm_compute. reflexivity. }
  split; [exact Hitem|].
  exact (function_entry Layout.ascending Sample.two_prototypes "port_send"
           {["mach"; "gnu"]} Hitem).
Defined.


Lemma unified_interface_entry_witness :
  (∀ X : gset string, Layout.ascending X ≡ₚ elements X)
  ∧ Py.get "mach_msg"
      (Compare.unified_interface
         (Compare.compare_interfaces Layout.ascending Sample.extracted))
    = Compare.classify
        (List.filter
           (λ system,
              bool_decide
                ("mach_msg" ∈ Ipc.exported Sample.extracted system))
           Ipc.systems).
Proof.
  split; [exact ascending_perm|].
  exact (unified_interface_entry Layout.ascending Sample.extracted
           "mach_msg" ascending_perm).
Defined.

Lemma clean_signature_shape_witness :
  Ipc.clean_signature (Sample.grep_stdout "Lites" "mach_msg")
  = Some "extern int mach_msg(void *msg);"
  ∧ "extern int mach_msg(void *msg);" ≠ ""
  ∧ String.length "extern int mach_msg(void *msg);" ≤ 200
  ∧ Text.all Facts.is_blank_or_visible "extern int mach_msg(void *msg);"
    = true.
Proof.
  assert (Ipc.clean_signature (Sample.grep_stdout "Lites" "mach_msg")
          = Some "extern int mach_msg(void *msg);") as Hclean
    by (vm_compute; reflexivity).
  split; [exact Hclean|].
  exact (clean_signature_shape _ _ Hclean).
Defined.

Lemma extracted_bounded : Checks.bounded Sample.extracted.
Proof.
  unfold Sample.extracted.
  apply extract_function_signatures_bounded.
  apply extract_function_signatures_bounded.
  apply bounded_empty.
Qed.

Lemma score_range_and_zero_witness :
  Checks.bounded Sample.extracted
  ∧ F64.ge_int
      (Ipc.calculate_compatibility_score Sample.extracted
         "CMU-Mach-MK83" "Lites") 0 = true
  ∧ SFleb
      (Ipc.calculate_compatibility_score Sample.extracted
         "CMU-Mach-MK83" "Lites") (F64.of_Z 100) = true
  ∧ (Ipc.calculate_compatibility_score Sample.extracted
       "CMU-Mach-MK83" "Lites" = F64.zero
     ↔ Ipc.exported Sample.extracted "CMU-Mach-MK83"
       ∩ Ipc.exported Sample.extracted "Lites" = ∅).
Proof.
  split; [exact extracted_bounded|].
  exact (score_range_and_zero Sample.extracted "CMU-Mach-MK83" "Lites"
           extracted_bounded).
Defined.

Lemma conflict_threshold_in_counts_witness :
  Checks.bounded Sample.extracted
  ∧ "CMU-Mach-MK83" ∈ Ipc.systems ∧ "Lites" ∈ Ipc.systems
  ∧ String.ltb "CMU-Mach-MK83" "Lites" = true
  ∧ ((∃ c, c ∈ Ipc.plan_conflicts Sample.extracted
           ∧ Ipc.conflict_systems c = ["CMU-Mach-MK83"; "Lites"])
     ↔ 2 * size (Ipc.exported Sample.extracted "CMU-Mach-MK83"
                 ∩ Ipc.exported Sample.extracted "Lites")
       < size (Ipc.exported Sample.extracted "CMU-Mach-MK83"
               ∪ Ipc.exported Sample.extracted "Lites")
       ∨ Ipc.exported Sample.extracted "CMU-Mach-MK83"
         ∪ Ipc.exported Sample.extracted "Lites" = ∅).
Proof.
  assert ("CMU-Mach-MK83" ∈ Ipc.systems) as H1
    by (unfold Ipc.systems; set_solver).
  assert ("Lites" ∈ Ipc.systems) as H2 by (unfold Ipc.systems; set_solver).
  assert (String.ltb "CMU-Mach-MK83" "Lites" = true) as H3 by reflexivity.
  split; [exact extracted_bounded|].
  split; [exact H1|]. split; [exact H2|]. split; [exact H3|].
  exact (proj1 (conflict_threshold_in_counts Sample.extracted _ _
                  extracted_bounded H1 H2 H3)).
Defined.

Lemma body_comes_from_first_declaring_source_witness :
  let contents := Scenario.contended_macro in
  let mach := Scenario.text ["#define FOOBAR 2"; "#define FOO 1"] in
  let gnu := Scenario.text ["#define FOO 3"] in
  NoDup (Py.keys contents)
  ∧ Facts.table Facts.Macro (Synth.scan_all contents) !! "FOO"
    = Some {["mach"; "gnu"]}
  ∧ contents = [] ++ ("mach", mach) :: [("gnu", gnu)]
  ∧ "mach" ∈ ({["mach"; "gnu"]} : gset string)
  ∧ Forall (λ entry : string * string,
              entry.1 ∉ ({["mach"; "gnu"]} : gset string)) []
  ∧ ∃ body,
      Re.search (Facts.body_pattern Facts.Macro "FOO") mach = Some body
      ∧ Synth.first_body (Facts.body_pattern Facts.Macro "FOO")
          {["mach"; "gnu"]} contents = Some body.
Proof.
  intros contents mach gnu.
  assert (NoDup (Py.keys contents)) as Hnd
    by (apply (bool_decide_unpack _); vm_compute; exact I).
  assert (Facts.table Facts.Macro (Synth.scan_all contents) !! "FOO"
          = Some {["mach"; "gnu"]}) as Hlook by (vm_compute; reflexivity).
  assert (contents = [] ++ ("mach", mach) :: [("gnu", gnu)]) as Hsplit
    by reflexivity.
  assert ("mach" ∈ ({["mach"; "gnu"]} : gset string)) as Hsys
    by set_solver.
  assert (Forall (λ entry : string * string,
                    entry.1 ∉ ({["mach"; "gnu"]} : gset string)) [])
    as Hbefore by constructor.
  split; [exact Hnd|]. split; [exact Hlook|]. split; [exact Hsplit|].
  split; [exact Hsys|]. split; [exact Hbefore|].
  exact (body_comes_from_first_declaring_source Facts.Macro contents "FOO"
           {["mach"; "gnu"]} [] "mach" mach [("gnu", gnu)]
           Hnd Hlook Hsplit Hsys Hbefore).
Defined.

Lemma exported_after_extraction_witness :
  "Lites" ∈ Ipc.systems
  ∧ ("vm_map"
       ∈ Ipc.exported
           (Ipc.extract_function_signatures Sample.grep_stdout "Lites" ∅)
           "Lites"
     ↔ ("Lites" = "Lites" ∧ "vm_map" ∈ Ipc.ipc_functions
        ∧ is_Some (Ipc.clean_signature
                     (Sample.grep_stdout "Lites" "vm_map")))
       ∨ ("Lites" ≠ "Lites" ∧ "vm_map" ∈ Ipc.exported ∅ "Lites")).
Proof.
  assert ("Lites" ∈ Ipc.systems) as Hsys
    by (unfold Ipc.systems; set_solver).
  split; [exact Hsys|].
  exact (proj1 (exported_after_extraction Sample.grep_stdout "Lites" ∅
                  "Lites" "vm_map" Hsys)).
Defined.

Lemma call_graph_edges_witness :
  "Lites" ∈ Ipc.systems
  ∧ (("msg_send", "mach_msg")
       ∈ Graph.build_call_graph Sample.cscope_stdout "Lites"
     ↔ "mach_msg" ∈ Graph.ipc_funcs
       ∧ "msg_send"
         ∈ take 10 (Str.split_lines
                      (Str.strip (Sample.cscope_stdout "Lites" "mach_msg")))
       ∧ "msg_send" ≠ "" ∧ "msg_send" ≠ "mach_msg")
  ∧ size (filter (λ edge, edge.2 = "mach_msg")
            (Graph.build_call_graph Sample.cscope_stdout "Lites")) ≤ 10.
Proof.
  assert ("Lites" ∈ Ipc.systems) as Hsys
    by (unfold Ipc.systems; set_solver).
  split; [exact Hsys|].
  split.
  - exact (proj1 (call_graph_edges Sample.cscope_stdout "Lites" Hsys)
             "msg_send" "mach_msg").
  - exact (proj2 (call_graph_edges Sample.cscope_stdout "Lites" Hsys)
             "mach_msg").
Defined.

Lemma guard_token_is_identifier_witness :
  Text.all Facts.is_plain_name_char "vm_map.h" = true
  ∧ Text.all Facts.is_guard_char (Synth.guard_token "vm_map.h") = true.
Proof.
  assert (Text.all Facts.is_plain_name_char "vm_map.h" = true) as Hplain
    by reflexivity.
  split; [exact Hplain|].
  exact (proj1 guard_token_is_identifier "vm_map.h" Hplain).
Defined.

(** A run in a locale that holds ASCII only, over trees in which one
    text of [task.h] has a letter outside ASCII: the file of [task.h] is
    left empty and the run ends with [UnicodeEncodeError].  In a locale
    that holds every text the same run returns. *)
Example merge_headers_stops_at_unencodable_text :
  Merge.merge_headers Sample.find_task_h Sample.read_task_h
    Layout.ascending Sample.ascii_only
  = ([("include/sys", "task.h", "")], Py.Raised Py.UnicodeEncodeError)
  ∧ (Merge.merge_headers Sample.find_task_h Sample.read_task_h
       Layout.ascending (λ _, true)).2
    = Py.Returned tt.
Proof. split; vm_compute; reflexivity. Qed.
